(** * Degree statistics and path-subgraph extraction over an undirected graph

    A shallow embedding of [analyze_graph.py] and [main.py].  Both scripts
    drive the [networkx] graph class; the parts of that class the scripts
    call ([read_edgelist], [add_edge], [neighbors], [degree], [density],
    [subgraph], [nodes], [edges]) are embedded next to the scripts' own
    functions, dictionary by dictionary, so that insertion order (which
    decides [neighbors[:max_neighbors]]) is kept.  The statistics are given
    twice: as the exact rationals, and in [computed] as the [int]s and
    floats that Python returns for them. *)

From Stdlib Require Import ZArith QArith Qround Qabs Qpower String Ascii List Sorting.Sorted Sorting.Permutation Lia Lqa.
From stdpp Require Import base gmap sets list strings sorting pretty.

Open Scope Z_scope.

(** ** Exceptions and fallible results *)

(** The exception classes that can leave the modelled functions. *)
Inductive exception :=
  | StatisticsError (msg : string)   (* statistics.mean, statistics.median *)
  | ValueError (msg : string)        (* max() of an empty sequence *)
  | NetworkXError (node : Z)         (* "The node <node> is not in the graph." *)
  | TypeError (msg : string)         (* read_edgelist: a field is not an int *)
  | OverflowError (msg : string)     (* int / int: the quotient is too large for a float *)
  | ZeroDivisionError (msg : string).  (* int / int: the divisor is zero *)

Inductive result (A : Type) :=
  | Ok (a : A)
  | Raise (e : exception).
Arguments Ok {A} a.
Arguments Raise {A} e.

(** Sequencing: the first exception raised ends the computation. *)
#[global] Instance result_ret : MRet result := λ A a, Ok a.
#[global] Instance result_bind : MBind result := λ A B k r,
  match r with
  | Ok a => k a
  | Raise e => Raise e
  end.

(** ** Text of an edge-list file *)

Module Text.

(** [str.isspace] restricted to ASCII: tab .. carriage return, the four
    separators 28 .. 31, and space. *)
Definition is_space (c : ascii) : bool :=
  let n := Z.of_nat (nat_of_ascii c) in
  ((9 <=? n) && (n <=? 13)) || ((28 <=? n) && (n <=? 31)) || (n =? 32).

(** [s.split()] with no separator: maximal runs of non-blank characters. *)
Fixpoint split_from (cur : string) (s : string) : list string :=
  match s with
  | EmptyString => if decide (cur = EmptyString) then [] else [cur]
  | String c s' =>
      if is_space c then
        if decide (cur = EmptyString) then split_from EmptyString s'
        else cur :: split_from EmptyString s'
      else split_from (cur ++ String c EmptyString)%string s'
  end.

Definition split (s : string) : list string := split_from EmptyString s.

(** [line.find("#")] followed by [line[:p]] when [p >= 0]. *)
Fixpoint strip_comment (s : string) : string :=
  match s with
  | EmptyString => EmptyString
  | String c s' =>
      if Ascii.eqb c "#"%char then EmptyString else String c (strip_comment s')
  end.

Definition digit_of (c : ascii) : option Z :=
  let n := Z.of_nat (nat_of_ascii c) in
  if (48 <=? n) && (n <=? 57) then Some (n - 48) else None.

(** The digit part of [int(s)]: decimal digits, a single underscore allowed
    between two digits. *)
Fixpoint parse_digits (acc : Z) (after_digit : bool) (s : string) : option Z :=
  match s with
  | EmptyString => if after_digit then Some acc else None
  | String c s' =>
      match digit_of c with
      | Some d => parse_digits (10 * acc + d) true s'
      | None =>
          if Ascii.eqb c "_"%char && after_digit
          then parse_digits acc false s'
          else None
      end
  end.

(** [int(s)] on a field produced by [split] (so without blanks): an
    optional sign and the digits.  Digits outside ASCII and the
    interpreter's limit on the number of digits are not modelled. *)
Definition int (s : string) : option Z :=
  match s with
  | String "+" s' => parse_digits 0 false s'
  | String "-" s' => Z.opp <$> parse_digits 0 false s'
  | _ => parse_digits 0 false s
  end.

End Text.

(** ** The graph class *)

(** [Graph._adj]: a dictionary from node to the dictionary of its
    neighbours.  Both levels are kept as lists in insertion order; edge
    attribute dictionaries are always empty here and are left out.
    [Graph._node] has the same keys in the same order and is read off
    the outer list. *)
Abbreviation Graph := (list (Z * list Z)).

Definition empty_graph : Graph := [].

(** [self._adj[n]], [None] standing for [KeyError]. *)
Fixpoint adj (G : Graph) (n : Z) : option (list Z) :=
  match G with
  | [] => None
  | (m, nbrs) :: G' => if decide (m = n) then Some nbrs else adj G' n
  end.

(** [list(G._node)]: the nodes in insertion order. *)
Definition nodes (G : Graph) : list Z := G.*1.

(** [n in G]. *)
Definition has_node (G : Graph) (n : Z) : bool := bool_decide (is_Some (adj G n)).

(** [G.has_edge(u, v)]: [v in self._adj[u]], false on [KeyError]. *)
Definition has_edge (G : Graph) (u v : Z) : bool :=
  match adj G u with
  | Some nbrs => bool_decide (v ∈ nbrs)
  | None => false
  end.

(** [d[k] = {}] on an inner dictionary: a new key goes to the end, an
    existing key keeps its place. *)
Definition dict_set (nbrs : list Z) (k : Z) : list Z :=
  if decide (k ∈ nbrs) then nbrs else nbrs ++ [k].

(** [self._adj[u][v] = datadict].  [add_edge] creates [u] first, so the
    [KeyError] of a missing [u] cannot happen; the model leaves the graph
    as it is there. *)
Fixpoint set_nbr (G : Graph) (u v : Z) : Graph :=
  match G with
  | [] => []
  | (m, nbrs) :: G' =>
      if decide (m = u) then (m, dict_set nbrs v) :: G'
      else (m, nbrs) :: set_nbr G' u v
  end.

(** The first half of [add_edge]: [if u not in self._node: self._adj[u] = {}]. *)
Definition add_node (G : Graph) (n : Z) : Graph :=
  if has_node G n then G else G ++ [(n, [])].

(** [G.add_edge(u, v)]. *)
Definition add_edge (G : Graph) (u v : Z) : Graph :=
  let G1 := add_node G u in
  let G2 := add_node G1 v in
  let G3 := set_nbr G2 u v in
  set_nbr G3 v u.

(** [G.neighbors(n)], as the list the caller makes of it. *)
Definition neighbors (G : Graph) (n : Z) : result (list Z) :=
  match adj G n with
  | Some nbrs => Ok nbrs
  | None => Raise (NetworkXError n)
  end.

(** [G.number_of_nodes()]. *)
Definition number_of_nodes (G : Graph) : Z := Z.of_nat (length G).

(** [G.degree()]: for each node the pair
    [(n, len(nbrs) + (n in nbrs))]; a self-loop counts twice. *)
Definition degree (G : Graph) : list (Z * Z) :=
  map (λ e : Z * list Z,
         (e.1, Z.of_nat (length e.2) + (if decide (e.1 ∈ e.2) then 1 else 0))) G.

(** [G.degree[n]], [None] standing for [KeyError]. *)
Definition degree_at (G : Graph) (n : Z) : option Z :=
  (λ nbrs, Z.of_nat (length nbrs) + (if decide (n ∈ nbrs) then 1 else 0)) <$> adj G n.

Definition sum (l : list Z) : Z := foldr Z.add 0 l.

(** [G.number_of_edges()], which is [G.size()]:
    [sum(d for v, d in self.degree()) // 2]. *)
Definition number_of_edges (G : Graph) : Z := sum (degree G).*2 / 2.

(** ** Loading: [nx.read_edgelist(filepath, create_using=nx.Graph(), nodetype=int)] *)

(** One iteration of the loop of [parse_edgelist]. *)
Definition parse_line (G : Graph) (line : string) : result Graph :=
  match Text.split (Text.strip_comment line) with
  | su :: sv :: d =>
      match Text.int su, Text.int sv with
      | Some u, Some v =>
          match d with
          | [] => Ok (add_edge G u v)
          | _ :: _ =>
              (* a third column is edge data, evaluated as a dictionary
                 literal; the model covers files without it and rejects
                 the line *)
              Raise (TypeError "Failed to convert edge data to dictionary.")
          end
      | _, _ => Raise (TypeError "Failed to convert nodes to type int.")
      end
  | _ => Ok G   (* fewer than two fields: [continue] *)
  end.

Fixpoint parse_edgelist (G : Graph) (lines : list string) : result Graph :=
  match lines with
  | [] => Ok G
  | line :: rest => G' ← parse_line G line; parse_edgelist G' rest
  end.

(** [load_graph], on the lines of the file at [filepath].  A line is taken
    as its text: the loader decodes it first, which changes nothing on an
    ASCII line and fails on bytes that are not UTF-8.  The model is exact on
    the [plain] lines defined below. *)
Definition load_graph (lines : list string) : result Graph :=
  parse_edgelist empty_graph lines.

(** Adding the edges of a list of pairs, as the loop does once the fields
    are converted. *)
Definition add_edges (G : Graph) (pairs : list (Z * Z)) : Graph :=
  foldl (λ G e, add_edge G e.1 e.2) G pairs.

(** ** [analyze_graph.py] *)

(** [nx.density(G)] for an undirected graph: [0] when there is no edge or at
    most one node, otherwise [m / (n * (n - 1))] doubled.  This is the exact
    value; the float the library returns for it is [computed.density]
    below. *)
Definition density (G : Graph) : Q :=
  let n := number_of_nodes G in
  let m := number_of_edges G in
  if (m =? 0) || (n <=? 1) then 0%Q
  else Qred ((inject_Z m / inject_Z (n * (n - 1))) * 2)%Q.

Module statistics.

(** [statistics.mean]: the exact quotient of the sum by the count (the
    library computes it as a fraction and converts it at the end; the
    number it returns is [computed.mean] below). *)
Definition mean (data : list Z) : result Q :=
  let n := Z.of_nat (length data) in
  if n <? 1 then Raise (StatisticsError "mean requires at least one data point")
  else Ok (Qred (inject_Z (sum data) / inject_Z n)%Q).

(** [sorted(data)] on integers. *)
Definition sorted (data : list Z) : list Z := merge_sort Z.le data.

(** [statistics.median], as an exact value; the number that is returned is
    [computed.median] below. *)
Definition median (data : list Z) : result Q :=
  let data := sorted data in
  let n := length data in
  if decide (n = 0%nat) then Raise (StatisticsError "no median for empty data")
  else if decide (n mod 2 = 1)%nat then Ok (inject_Z (nth (n / 2) data 0))
  else
    let i := (n / 2)%nat in
    let two_middle := nth (i - 1) data 0 + nth i data 0 in
    Ok (Qred (inject_Z two_middle / 2)%Q).

End statistics.

Module builtins.

(** [max(iterable)]. *)
Definition max (data : list Z) : result Z :=
  match data with
  | [] => Raise (ValueError "max() arg is an empty sequence")
  | x :: rest => Ok (foldl Z.max x rest)
  end.

(** [l[:stop]]: a negative [stop] counts from the end, and both ends are
    clipped to the list. *)
Definition slice_to (l : list Z) (stop : Z) : list Z :=
  if 0 <=? stop then take (Z.to_nat stop) l
  else take (Z.to_nat (Z.of_nat (length l) + stop)) l.

End builtins.

(** What [get_and_print_stats] prints, as the values it formats. *)
Module Report.
Record t := make {
  num_nodes : Z;
  num_edges : Z;
  density : Q;
  avg_degree : Q;
  median_degree : Q;
  max_degree : Z
}.
End Report.

(** [get_and_print_stats]: the printed report and the returned triple
    [(degrees, avg_degree, median_degree)]. *)
Definition get_and_print_stats (G : Graph) : result (Report.t * (list Z * Q * Q)) :=
  let num_nodes := number_of_nodes G in
  let num_edges := number_of_edges G in
  let density := density G in
  let degrees := (degree G).*2 in
  avg_degree ← statistics.mean degrees;
  median_degree ← statistics.median degrees;
  max_degree ← builtins.max degrees;
  Ok (Report.make num_nodes num_edges density avg_degree median_degree max_degree,
      (degrees, avg_degree, median_degree)).

(** ** [main.py] *)

(** [nx.subgraph_view(G, filter_node=...)] with the filter [show_nodes]:
    the nodes the filter lets through and, under each of them, the
    neighbours it lets through. *)
Definition subgraph_view (G : Graph) (filter_node : gset Z) : Graph :=
  map (λ e : Z * list Z, (e.1, filter (λ nbr, nbr ∈ filter_node) e.2))
      (filter (λ e : Z * list Z, e.1 ∈ filter_node) G).

(** [G.subgraph(nodes)]: the nodes of [nbunch] that are in [G]
    ([nbunch_iter] passes over the others in silence), and under each of
    them the neighbours that are kept as well.  The view is listed here in
    the order of the graph; the library may list a small view in the order
    of the node set instead, so the properties below speak of membership
    only, never of positions in a view. *)
Definition subgraph (G : Graph) (nbunch : gset Z) : Graph :=
  let induced : gset Z := filter (λ n, has_node G n) nbunch in
  subgraph_view G induced.

(** The body of [for node in path:] in [get_path_subgraph]. *)
Fixpoint update_neighbors (G : Graph) (max_neighbors : Z)
    (nodes_to_draw : gset Z) (path : list Z) : result (gset Z) :=
  match path with
  | [] => Ok nodes_to_draw
  | node :: rest =>
      nbrs ← neighbors G node;
      update_neighbors G max_neighbors
        (nodes_to_draw ∪ list_to_set (builtins.slice_to nbrs max_neighbors)) rest
  end.

(** The set [nodes_to_draw] at the [return] of [get_path_subgraph]. *)
Definition nodes_to_draw (G : Graph) (path : list Z)
    (show_neighbors : bool) (max_neighbors : Z) : result (gset Z) :=
  let nodes_to_draw : gset Z := list_to_set path in
  if show_neighbors then update_neighbors G max_neighbors nodes_to_draw path
  else Ok nodes_to_draw.

Definition get_path_subgraph (G : Graph) (path : list Z)
    (show_neighbors : bool) (max_neighbors : Z) : result Graph :=
  nodes_to_draw ← nodes_to_draw G path show_neighbors max_neighbors;
  Ok (subgraph G nodes_to_draw).

(** [G.edges()]: under each node in turn, the neighbours that were not
    themselves visited before. *)
Fixpoint edges_from (seen : gset Z) (G : Graph) : list (Z * Z) :=
  match G with
  | [] => []
  | (n, nbrs) :: G' =>
      map (pair n) (filter (λ nbr, nbr ∉ seen) nbrs) ++ edges_from (seen ∪ {[n]}) G'
  end.

Definition edges (G : Graph) : list (Z * Z) := edges_from ∅ G.

(** [list(zip(path, path[1:]))]. *)
Definition path_edges (path : list Z) : list (Z * Z) := zip path (drop 1 path).

(** The test of the edge loop of [draw_network]. *)
Definition on_path (path : list Z) (u v : Z) : bool :=
  bool_decide ((u, v) ∈ path_edges path) || bool_decide ((v, u) ∈ path_edges path).

(** The four lists [draw_network] hands to the drawing calls (layout,
    labels and the window itself are the plotting library's). *)
Module Drawing.
Record t := make {
  node_colors : list string;
  node_sizes : list Z;
  edge_colors : list string;
  edge_widths : list Q
}.
End Drawing.

Definition draw_network (subgraph : Graph) (path : list Z) : Drawing.t :=
  let node_style (node : Z) :=
    if decide (node ∈ path) then ("red"%string, 300) else ("lightgray"%string, 50) in
  let edge_style (e : Z * Z) :=
    if on_path path e.1 e.2 then ("red"%string, 2%Q) else ("#e0e0e0"%string, (1 # 2)%Q) in
  Drawing.make (map (λ n, (node_style n).1) (nodes subgraph))
               (map (λ n, (node_style n).2) (nodes subgraph))
               (map (λ e, (edge_style e).1) (edges subgraph))
               (map (λ e, (edge_style e).2) (edges subgraph)).

(** ** Notions the properties are stated with *)

(** The representation invariant of the graph class: no key twice at either
    level, and every adjacency entry has its mirror (so every neighbour is a
    node). *)
Definition wf (G : Graph) : Prop :=
  NoDup (nodes G) ∧
  Forall (λ e : Z * list Z, NoDup e.2 ∧ Forall (λ v, has_edge G v e.1) e.2) G.

#[global] Instance wf_dec G : Decision (wf G).
Proof. unfold wf. apply _. Defined.

(** [a] is directly followed by [b] in [path]. *)
Definition consecutive (path : list Z) (a b : Z) : Prop :=
  ∃ i : nat, path !! i = Some a ∧ path !! S i = Some b.

(** The neighbours a path node hands to [nodes_to_draw.update]. *)
Definition contribution (G : Graph) (max_neighbors : Z) (node : Z) : list Z :=
  builtins.slice_to (default [] (adj G node)) max_neighbors.

(** An unordered pair, written smaller end first. *)
Definition unordered (e : Z * Z) : Z * Z := (Z.min e.1 e.2, Z.max e.1 e.2).

(** The distinct unordered pairs among [pairs]. *)
Definition distinct_pairs (pairs : list (Z * Z)) : gset (Z * Z) :=
  list_to_set (unordered <$> pairs).

(** What ties a graph under construction to the set [S] of unordered
    pairs added so far: its edges are the pairs of [S], and its degrees add
    up to twice their number. *)
Definition tracks (G : Graph) (S : gset (Z * Z)) : Prop :=
  (∀ a b, has_edge G a b ↔ unordered (a, b) ∈ S) ∧
  sum (degree G).*2 = 2 * Z.of_nat (size S).

(** The pair of integers a line of the file lists, if it lists one. *)
Definition line_pair (line : string) : option (Z * Z) :=
  match Text.split (Text.strip_comment line) with
  | su :: sv :: _ =>
      match Text.int su, Text.int sv with
      | Some u, Some v => Some (u, v)
      | _, _ => None
      end
  | _ => None
  end.

Definition listed_pairs (lines : list string) : list (Z * Z) := omap line_pair lines.


(** ** Worked inputs *)

Definition chain : list string := ["0 1"; "1 2"; "2 3"]%string.

Definition chain_graph : Graph := [(0, [1]); (1, [0; 2]); (2, [1; 3]); (3, [2])].

(** The first two lines of the chain, and the graph they load. *)
Definition two_lines : list string := ["0 1"; "1 2"]%string.

Definition two_lines_graph : Graph := [(0, [1]); (1, [0; 2]); (2, [1])].


(** A star around node 1 with a tail to node 9. *)
Definition star_graph : Graph :=
  add_edges empty_graph [(1, 2); (1, 3); (1, 4); (1, 5); (5, 9)].

(** What [get_path_subgraph] returns on the star for the path [1, 5] with
    neighbours shown and a cap of two. *)
Definition star_path_subgraph : Graph :=
  [(1, [2; 3; 5]); (2, [1]); (3, [1]); (5, [1; 9]); (9, [5])].

(** ** [plot_degree_distribution] and [main] of [analyze_graph.py] *)

(** What [plot_degree_distribution] hands to the plotting calls. *)
Module Plot.
Record t := make {
  data : list Z;        (* plt.hist(degrees, ...) *)
  bins : Z;             (* bins=40 *)
  range : Z * Z;        (* range=(0, 200) *)
  mean_line : Q;        (* plt.axvline(avg_degree, ...) *)
  median_line : Q;      (* plt.axvline(median_degree, ...) *)
  text_at : Z * Z;      (* plt.text(x=150, y=100, ...) *)
  noted_max : Z         (* the maximum named in the text box *)
}.
End Plot.

Definition plot_degree_distribution (degrees : list Z)
    (avg_degree median_degree : Q) : result Plot.t :=
  max_degree ← builtins.max degrees;
  Ok (Plot.make degrees 40 (0, 200) avg_degree median_degree (150, 100) max_degree).

Module analyze_graph.

(** What a run shows, in order. *)
Inductive output :=
  | Loading                 (* "Wczytywanie danych z pliku ..." *)
  | FileNotFound            (* "Błąd: Nie znaleziono pliku ..." *)
  | Stats (r : Report.t)    (* the block [get_and_print_stats] prints *)
  | Shown (p : Plot.t).     (* the histogram window *)

(** [main], on the content of the file named [FILENAME] ([None] when there
    is no such file): what was shown, and how the run ended. *)
Definition main (file : option (list string)) : list output * result () :=
  match file with
  | None => ([Loading; FileNotFound], Ok ())
  | Some lines =>
      match load_graph lines with
      | Raise e => ([Loading], Raise e)
      | Ok G =>
          match get_and_print_stats G with
          | Raise e => ([Loading], Raise e)
          | Ok (report, (degrees, avg_degree, median_degree)) =>
              match plot_degree_distribution degrees avg_degree median_degree with
              | Raise e => ([Loading; Stats report], Raise e)
              | Ok p => ([Loading; Stats report; Shown p], Ok ())
              end
          end
      end
  end.

End analyze_graph.

(** ** Further notions *)

(** The distinct items of a list, in the order of their first appearance. *)
Definition first_seen (l : list Z) : list Z := reverse (remove_dups (reverse l)).

(** The ends of the listed pairs, in the order the file names them. *)
Definition endpoints (pairs : list (Z * Z)) : list Z :=
  pairs ≫= λ e, [e.1; e.2].

(** The nodes the listed pairs join to [n], in the order the file names
    them. *)
Definition partners (n : Z) (pairs : list (Z * Z)) : list Z :=
  pairs ≫= λ e,
    (if decide (e.1 = n) then [e.2] else []) ++ (if decide (e.2 = n) then [e.1] else []).

(** No node is its own neighbour. *)
Definition loop_free (G : Graph) : Prop := Forall (λ e : Z * list Z, e.1 ∉ e.2) G.

(** The lines "0 1", "0 0", "1 1": one edge and a loop at either end. *)
Definition looped_graph : Graph := [(0, [1; 0]); (1, [0; 1])].

(** The star, as a file that names one of its edges three times. *)
Definition star_lines : list string :=
  ["1 2"; "1 3"; "2 1"; "1 4"; "1 5 # hub"; ""; "5 9"; "1 2"]%string.

(** What [get_path_subgraph] returns on the star for the path [1, 5, 9]
    with neighbours shown and a cap of one. *)
Definition star_path_long : Graph :=
  [(1, [2; 5]); (2, [1]); (5, [1; 9]); (9, [5])].



(** ** The numbers Python computes *)

(** [float] is the IEEE 754 binary64 format.  A finite float is modelled by
    the rational it is; the sign of a zero is not kept. *)
Module float.

(** The exponent of the leading bit of a positive [q]: the [L] with
    [2 ^ L <= q < 2 ^ (L + 1)]. *)
Definition floor_log2 (q : Q) : Z :=
  let d := Z.log2 (Qnum q) - Z.log2 (Zpos (Qden q)) in
  if Qle_bool (2 ^ d) q then d else d - 1.

(** The exponent of the last bit a float near [q] has: 53 bits from the
    leading one, and never below the smallest subnormal [2 ^ -1074]. *)
Definition quantum (q : Q) : Z := Z.max (floor_log2 q - 52) (-1074).

(** The integer nearest to [x], the even one of the two when [x] is half
    way. *)
Definition round_half_even (x : Q) : Z :=
  let m := Qfloor x in
  match (x - inject_Z m ?= 1 # 2)%Q with
  | Lt => m
  | Gt => m + 1
  | Eq => if Z.even m then m else m + 1
  end.

(** A positive [q] in units of its last bit, and the number of units it
    is rounded to. *)
Definition scaled (q : Q) : Q := q / 2 ^ quantum q.

Definition significand (q : Q) : Z := round_half_even (scaled q).

(** A positive [q] rounded to 53 bits, before the range is looked at. *)
Definition nearest (q : Q) : Q :=
  Qred (inject_Z (significand q) * 2 ^ quantum q).

(** The correctly rounded float for [q]; a result of [2 ^ 1024] or more is
    no float, and the conversion raises. *)
Definition of_Q (q : Q) (msg : string) : result Q :=
  match (q ?= 0)%Q with
  | Eq => Ok 0%Q
  | Gt =>
      let v := nearest q in
      if Qle_bool (2 ^ 1024) v then Raise (OverflowError msg) else Ok v
  | Lt =>
      let v := nearest (- q) in
      if Qle_bool (2 ^ 1024) v then Raise (OverflowError msg) else Ok (- v)%Q
  end.

(** [a / b] on two [int]s: the quotient is rounded once. *)
Definition true_div (a b : Z) : result Q :=
  if b =? 0 then Raise (ZeroDivisionError "division by zero")
  else of_Q (inject_Z a / inject_Z b) "integer division result too large for a float".

End float.

(** A number as the scripts hold it: an [int], a finite [float], or the
    float infinity a product can overflow to. *)
Inductive number :=
  | Int (z : Z)
  | Float (x : Q)
  | Inf.

(** [2 ^ 52] and [2 ^ 53], between which the significand of a normal
    float lies. *)
Definition c52 : Q := 4503599627370496.
Definition c53 : Q := 9007199254740992.

(** Case analysis on the sign under every absolute value of the goal. *)
Ltac qabs := repeat (apply Qabs_case; intro).

(** The finite floats: a significand below [2 ^ 53] at an exponent between
    that of the smallest subnormal and that of the largest float. *)
Definition is_double (x : Q) : Prop :=
  ∃ m e : Z, Z.abs m < 2 ^ 53 ∧ -1074 ≤ e ≤ 971 ∧ (x == inject_Z m * 2 ^ e)%Q.

(** [v] is a float, and no float is nearer to [q]. *)
Definition rounds_to (q v : Q) : Prop :=
  is_double v ∧ ∀ d, is_double d → (Qabs (v - q) <= Qabs (d - q))%Q.

(** The number [v] stands for the exact value [q]: as an [int] it is [q],
    as a float it is [q] rounded. *)
Definition stands_for (v : number) (q : Q) : Prop :=
  match v with
  | Int z => (q == inject_Z z)%Q
  | Float x => rounds_to q x
  | Inf => False
  end.

(** [analyze_graph.py] again, with the numbers as they are computed;
    [density], [statistics.mean] and [statistics.median] above give the
    exact values that are rounded here. *)
Module computed.

(** [d *= 2] on a float that is not negative. *)
Definition double (d : Q) : number :=
  let v := Qred (d * 2) in
  if Qle_bool (2 ^ 1024) v then Inf else Float v.

(** [nx.density(G)] for an undirected graph:
    [if m == 0 or n <= 1: return 0], then [d = m / (n * (n - 1))] and
    [d *= 2]. *)
Definition density (G : Graph) : result number :=
  let n := number_of_nodes G in
  let m := number_of_edges G in
  if (m =? 0) || (n <=? 1) then Ok (Int 0)
  else d ← float.true_div m (n * (n - 1)); Ok (double d).

(** [statistics._convert(value, int)] on a fraction: an [int] when the
    denominator is one, otherwise [float(value)], which is
    [numerator / denominator]. *)
Definition _convert (value : Q) : result number :=
  let value := Qred value in
  if decide (Qden value = 1%positive) then Ok (Int (Qnum value))
  else x ← float.true_div (Qnum value) (Zpos (Qden value)); Ok (Float x).

(** [statistics.mean] on a list of [int]s. *)
Definition mean (data : list Z) : result number :=
  let n := Z.of_nat (length data) in
  if n <? 1 then Raise (StatisticsError "mean requires at least one data point")
  else _convert (inject_Z (sum data) / inject_Z n).

(** [statistics.median] on a list of [int]s: the middle item itself, or
    [(data[i - 1] + data[i]) / 2]. *)
Definition median (data : list Z) : result number :=
  let data := statistics.sorted data in
  let n := length data in
  if decide (n = 0%nat) then Raise (StatisticsError "no median for empty data")
  else if decide (n mod 2 = 1)%nat then Ok (Int (nth (n / 2) data 0))
  else
    let i := (n / 2)%nat in
    x ← float.true_div (nth (i - 1) data 0 + nth i data 0) 2; Ok (Float x).

(** What [get_and_print_stats] prints, as the values it formats. *)
Module Report.
Record t := make {
  num_nodes : Z;             (* {num_nodes} *)
  num_edges : Z;             (* {num_edges} *)
  density : number;          (* {density:.4f} *)
  avg_degree : number;       (* {avg_degree:.2f} *)
  median_degree : number;    (* {median_degree} *)
  max_degree : Z             (* {max_degree} *)
}.
End Report.

(** [get_and_print_stats]: the printed report and the returned triple
    [(degrees, avg_degree, median_degree)].  Everything is computed before
    the first line is printed.  (The formats [.4f] and [.2f] turn an [int]
    into a float before they print it; a mean that is an [int] of
    [2 ^ 1024] or more, which they cannot turn, is left out.) *)
Definition get_and_print_stats (G : Graph)
    : result (Report.t * (list Z * number * number)) :=
  let num_nodes := number_of_nodes G in
  let num_edges := number_of_edges G in
  density ← density G;
  let degrees := (degree G).*2 in
  avg_degree ← mean degrees;
  median_degree ← median degrees;
  max_degree ← builtins.max degrees;
  Ok (Report.make num_nodes num_edges density avg_degree median_degree max_degree,
      (degrees, avg_degree, median_degree)).

(** What [plot_degree_distribution] hands to the plotting calls. *)
Module Plot.
Record t := make {
  data : list Z;            (* plt.hist(degrees, ...) *)
  bins : Z;                 (* bins=40 *)
  range : Z * Z;            (* range=(0, 200) *)
  mean_line : number;       (* plt.axvline(avg_degree, ...) *)
  median_line : number;     (* plt.axvline(median_degree, ...) *)
  text_at : Z * Z;          (* plt.text(x=150, y=100, ...) *)
  noted_max : Z             (* the maximum named in the text box *)
}.
End Plot.

Definition plot_degree_distribution (degrees : list Z)
    (avg_degree median_degree : number) : result Plot.t :=
  max_degree ← builtins.max degrees;
  Ok (Plot.make degrees 40 (0, 200) avg_degree median_degree (150, 100) max_degree).

(** What a run shows, in order. *)
Inductive output :=
  | Loading                 (* "Wczytywanie danych z pliku ..." *)
  | FileNotFound            (* "Błąd: Nie znaleziono pliku ..." *)
  | Stats (r : Report.t)    (* the block [get_and_print_stats] prints *)
  | Shown (p : Plot.t).     (* the histogram window *)

(** [main], on the content of the file named [FILENAME] ([None] when there
    is no such file): what was shown, and how the run ended. *)
Definition main (file : option (list string)) : list output * result () :=
  match file with
  | None => ([Loading; FileNotFound], Ok ())
  | Some lines =>
      match load_graph lines with
      | Raise e => ([Loading], Raise e)
      | Ok G =>
          match get_and_print_stats G with
          | Raise e => ([Loading], Raise e)
          | Ok (report, (degrees, avg_degree, median_degree)) =>
              match plot_degree_distribution degrees avg_degree median_degree with
              | Raise e => ([Loading; Stats report], Raise e)
              | Ok p => ([Loading; Stats report; Shown p], Ok ())
              end
          end
      end
  end.

End computed.

(** The lines the loader is modelled exactly on: ASCII only, so that
    decoding the line changes nothing and blanks and digits are the ASCII
    ones; short enough for [int] to accept any run of digits; and at most
    two fields before a comment sign, so that there is no edge data to
    evaluate. *)
Fixpoint ascii_only (s : string) : bool :=
  match s with
  | EmptyString => true
  | String c s' => (nat_of_ascii c <? 128)%nat && ascii_only s'
  end.

Definition plain (line : string) : bool :=
  ascii_only line && (String.length line <=? 4000)%nat &&
  (length (Text.split (Text.strip_comment line)) <=? 2)%nat.

(** ** Worked runs *)

Example load_chain : load_graph chain = Ok chain_graph.
Proof. vm_compute. reflexivity. Qed.

Example stats_chain :
  get_and_print_stats chain_graph =
    Ok (Report.make 4 3 (1 # 2) (3 # 2) (3 # 2) 2, ([1; 2; 2; 1], (3 # 2)%Q, (3 # 2)%Q)).
Proof. vm_compute. reflexivity. Qed.

Example subgraph_chain :
  get_path_subgraph chain_graph [1; 2] true 1 = Ok [(0, [1]); (1, [0; 2]); (2, [1])].
Proof. vm_compute. reflexivity. Qed.

Example edges_chain : edges chain_graph = [(0, 1); (1, 2); (2, 3)].
Proof. vm_compute. reflexivity. Qed.

Example wf_chain : wf chain_graph.
Proof. apply (bool_decide_unpack _). vm_compute. exact I. Qed.

(** ** Adjacency lookups *)

Lemma adj_elem_of G n nbrs : adj G n = Some nbrs → (n, nbrs) ∈ G.
Proof.
  induction G as [|[m l] G IH]; simpl; [done|].
  case_decide as Hm.
  - intros [= ->]. subst m. apply list_elem_of_here.
  - intros H. apply list_elem_of_further. auto.
Qed.

Lemma adj_is_Some G n : is_Some (adj G n) ↔ n ∈ nodes G.
Proof.
  unfold nodes. induction G as [|[m l] G IH]; simpl.
  - split; [by intros [? ?]|]. intros H. by apply not_elem_of_nil in H.
  - case_decide as Hm.
    + subst m. split; [intros _; apply list_elem_of_here|eauto].
    + rewrite IH, elem_of_cons. naive_solver.
Qed.

Lemma has_node_nodes G n : has_node G n ↔ n ∈ nodes G.
Proof. unfold has_node. rewrite bool_decide_spec. apply adj_is_Some. Qed.

Lemma has_edge_spec G u v :
  has_edge G u v ↔ ∃ nbrs, adj G u = Some nbrs ∧ v ∈ nbrs.
Proof.
  unfold has_edge. destruct (adj G u) as [nbrs|].
  - rewrite bool_decide_spec. naive_solver.
  - naive_solver.
Qed.

Lemma has_edge_has_node G u v : has_edge G u v → has_node G u.
Proof.
  rewrite has_edge_spec. intros (nbrs & H & _).
  unfold has_node. apply bool_decide_pack. eauto.
Qed.

(** In a well-formed graph the far end of an edge is a node as well. *)
Lemma wf_has_edge_sym G u v : wf G → has_edge G u v → has_edge G v u.
Proof.
  intros [_ HG]. rewrite has_edge_spec. intros (nbrs & Hadj & Hv).
  apply adj_elem_of in Hadj. rewrite Forall_forall in HG.
  destruct (HG _ Hadj) as [_ Hn]. rewrite Forall_forall in Hn. by apply Hn.
Qed.

(** ** The statistics of the empty graph *)

Lemma number_of_nodes_0 G : number_of_nodes G = 0 → G = [].
Proof. unfold number_of_nodes. destruct G; simpl; [done|lia]. Qed.

(** C1 (as amended): on a graph without nodes [get_and_print_stats] has no
    branch of its own; it calls [statistics.mean] on the empty degree list
    and ends with the [StatisticsError] that call raises. *)
Theorem empty_graph_stats_raise_from_mean G :
  number_of_nodes G = 0 →
  statistics.mean (degree G).*2
    = Raise (StatisticsError "mean requires at least one data point") ∧
  get_and_print_stats G
    = Raise (StatisticsError "mean requires at least one data point").
Proof. intros ->%number_of_nodes_0. split; reflexivity. Qed.

Lemma empty_graph_stats_raise_from_mean_witness :
  number_of_nodes empty_graph = 0 ∧
  get_and_print_stats empty_graph
    = Raise (StatisticsError "mean requires at least one data point").
Proof.
  split; [reflexivity|].
  apply (empty_graph_stats_raise_from_mean empty_graph). reflexivity.
Defined.

(** C1 (as stated) fails: the failure on the empty graph is the very
    exception that evaluating [statistics.mean] on the empty degree list
    raises, so the mean is evaluated and nothing guards it. *)
Lemma empty_graph_stats_not_guarded :
  number_of_nodes empty_graph = 0 ∧
  ∃ e, statistics.mean (degree empty_graph).*2 = Raise e ∧
       get_and_print_stats empty_graph = Raise e.
Proof. split; [reflexivity|]. eexists. split; reflexivity. Qed.

(** ** Edge classification of the renderer *)

Lemma elem_of_path_edges path a b :
  (a, b) ∈ path_edges path ↔ consecutive path a b.
Proof.
  unfold path_edges, consecutive.
  induction path as [|x path IH]; simpl.
  - split; [intros H; by apply not_elem_of_nil in H|by intros (i & ? & _)].
  - rewrite drop_0. destruct path as [|y path].
    + split; [intros H; by apply not_elem_of_nil in H|].
      intros (i & _ & H). by destruct i.
    + change (zip (x :: y :: path) (y :: path))
        with ((x, y) :: zip (y :: path) (drop 1 (y :: path))).
      rewrite elem_of_cons, IH. split.
      * intros [[= -> ->]|(i & H1 & H2)]; [by exists 0%nat|by exists (S i)].
      * intros ([|i] & H1 & H2); simpl in *; [left; congruence|right; eauto].
Qed.

Lemma on_path_spec path u v :
  on_path path u v = true ↔ consecutive path u v ∨ consecutive path v u.
Proof.
  unfold on_path. rewrite orb_true_iff, !bool_decide_eq_true.
  by rewrite !elem_of_path_edges.
Qed.

(** C6: an edge of the subgraph is drawn as a path edge (red, width 2)
    exactly when its two ends are consecutive in the path, in one
    orientation or the other; on the path [0, 1, 2] the edge (1, 2) is a
    path edge and (1, 5) is a context edge, whichever way it is given. *)
Theorem edge_classification :
  (∀ path u v,
     on_path path u v = true ↔ consecutive path u v ∨ consecutive path v u) ∧
  (∀ subgraph path,
     Drawing.edge_colors (draw_network subgraph path)
       = map (λ e, if on_path path e.1 e.2 then "red" else "#e0e0e0")%string
             (edges subgraph) ∧
     Drawing.edge_widths (draw_network subgraph path)
       = map (λ e, if on_path path e.1 e.2 then 2 else 1 # 2)%Q
             (edges subgraph)) ∧
  on_path [0; 1; 2] 1 2 = true ∧
  on_path [0; 1; 2] 1 5 = false ∧
  on_path [0; 1; 2] 5 1 = false.
Proof.
  split; [exact on_path_spec|]. split; [|by vm_compute].
  intros sub path. unfold draw_network; simpl.
  split; apply map_ext; intros [u v]; simpl; by destruct (on_path path u v).
Qed.

(** ** The induced subgraph *)

Section restrict.
Context (keep : gset Z).

Lemma adj_restrict G n :
  adj (subgraph_view G keep) n
    = if decide (n ∈ keep) then filter (λ nbr, nbr ∈ keep) <$> adj G n else None.
Proof.
  unfold subgraph_view. induction G as [|[m l] G IH].
  - simpl. by case_decide.
  - rewrite filter_cons. simpl. destruct (decide (m ∈ keep)) as [Hm|Hm]; simpl.
    + destruct (decide (m = n)) as [->|Hmn].
      * by rewrite decide_True.
      * exact IH.
    + destruct (decide (m = n)) as [->|Hmn].
      * rewrite IH. by rewrite !decide_False.
      * exact IH.
Qed.

Lemma nodes_restrict G n : n ∈ nodes (subgraph_view G keep) ↔ n ∈ keep ∧ n ∈ nodes G.
Proof.
  rewrite <- !adj_is_Some, adj_restrict. case_decide.
  - rewrite fmap_is_Some. naive_solver.
  - split; [by intros [? ?]|naive_solver].
Qed.
End restrict.

Lemma subgraph_nodes G s n : n ∈ nodes (subgraph G s) ↔ n ∈ s ∧ n ∈ nodes G.
Proof.
  unfold subgraph. rewrite nodes_restrict, elem_of_filter, has_node_nodes.
  naive_solver.
Qed.

Lemma subgraph_has_edge G s u v :
  has_edge (subgraph G s) u v ↔ has_edge G u v ∧ u ∈ s ∧ v ∈ s ∧ has_node G v.
Proof.
  unfold subgraph. rewrite !has_edge_spec. setoid_rewrite adj_restrict.
  case_decide as Hu; rewrite elem_of_filter in Hu.
  - split.
    + intros (nbrs & H & Hv). apply fmap_Some in H as (l & Hl & ->).
      apply list_elem_of_filter in Hv as [Hv Hvl].
      apply elem_of_filter in Hv. naive_solver.
    + intros ((nbrs & H & Hv) & _ & Hvs & Hvn).
      exists (filter (λ nbr, nbr ∈ filter (λ n, has_node G n) s) nbrs).
      rewrite H. split; [done|].
      apply list_elem_of_filter. split; [|done]. by apply elem_of_filter.
  - split; [by intros (? & ? & _)|].
    intros ((nbrs & H & Hv) & Hus & _). destruct Hu. split; [|done].
    unfold has_node. apply bool_decide_pack. eauto.
Qed.

(** ** The node set of the path subgraph *)

Lemma neighbors_node G n : n ∈ nodes G → neighbors G n = Ok (default [] (adj G n)).
Proof.
  intros [nbrs H]%adj_is_Some. unfold neighbors. by rewrite H.
Qed.

Lemma neighbors_missing G n : n ∉ nodes G → neighbors G n = Raise (NetworkXError n).
Proof.
  intros H. unfold neighbors. destruct (adj G n) eqn:E; [|done].
  destruct H. apply adj_is_Some. eauto.
Qed.

Lemma update_neighbors_ok G C s path :
  (∀ p, p ∈ path → p ∈ nodes G) →
  update_neighbors G C s path
    = Ok (s ∪ ⋃ ((λ p, list_to_set (contribution G C p)) <$> path)).
Proof.
  revert s. induction path as [|p path IH]; intros s Hin; simpl.
  - f_equal. set_solver.
  - rewrite neighbors_node by (apply Hin; left). simpl.
    rewrite IH by (intros q Hq; apply Hin; by right).
    f_equal. unfold contribution. set_solver.
Qed.

Lemma update_neighbors_raise G C s before n after :
  (∀ p, p ∈ before → p ∈ nodes G) → n ∉ nodes G →
  update_neighbors G C s (before ++ n :: after) = Raise (NetworkXError n).
Proof.
  revert s. induction before as [|p before IH]; intros s Hin Hn; simpl.
  - by rewrite neighbors_missing.
  - rewrite neighbors_node by (apply Hin; left). simpl.
    apply IH; [|done]. intros q Hq. apply Hin. by right.
Qed.

Lemma nodes_to_draw_ok G path flag C :
  (∀ p, p ∈ path → p ∈ nodes G) →
  nodes_to_draw G path flag C
    = Ok (list_to_set path ∪
          if flag then ⋃ ((λ p, list_to_set (contribution G C p)) <$> path) else ∅).
Proof.
  intros Hin. unfold nodes_to_draw. destruct flag.
  - by apply update_neighbors_ok.
  - f_equal. set_solver.
Qed.

Lemma elem_of_contributions G C path n :
  n ∈ (⋃ ((λ p, list_to_set (contribution G C p)) <$> path) : gset Z)
  ↔ ∃ p, p ∈ path ∧ n ∈ contribution G C p.
Proof.
  rewrite elem_of_union_list. split.
  - intros (X & HX & Hn). apply list_elem_of_fmap in HX as (p & -> & Hp).
    exists p. split; [done|]. by apply elem_of_list_to_set in Hn.
  - intros (p & Hp & Hn). exists (list_to_set (contribution G C p)).
    split; [|by apply elem_of_list_to_set].
    apply list_elem_of_fmap. eauto.
Qed.

Lemma size_union_le (X Y : gset Z) : (size (X ∪ Y) ≤ size X + size Y)%nat.
Proof.
  rewrite size_union_alt.
  assert (size (Y ∖ X) ≤ size Y)%nat by (apply subseteq_size; set_solver). lia.
Qed.

Lemma size_list_to_set_le (l : list Z) :
  (size (list_to_set l : gset Z) ≤ length l)%nat.
Proof.
  induction l as [|x l IH].
  - rewrite list_to_set_nil, size_empty. simpl. lia.
  - rewrite list_to_set_cons.
    pose proof (size_union_le {[x]} (list_to_set l)) as H.
    rewrite size_singleton in H. simpl length. lia.
Qed.

Lemma contribution_length G C p :
  0 ≤ C → Z.of_nat (length (contribution G C p)) ≤ C.
Proof.
  intros HC. unfold contribution, builtins.slice_to.
  destruct (Z.leb_spec 0 C); [|lia]. rewrite length_take. lia.
Qed.

Lemma contribution_neighbors G C p n :
  n ∈ contribution G C p → has_edge G p n.
Proof.
  unfold contribution, builtins.slice_to. intros H.
  assert (n ∈ default [] (adj G p)) as Hn.
  { destruct (0 <=? C); apply elem_of_take in H as (i & Hi & _);
      by eapply list_elem_of_lookup_2. }
  apply has_edge_spec. destruct (adj G p) as [nbrs|]; simpl in Hn.
  - eauto.
  - by apply not_elem_of_nil in Hn.
Qed.

Lemma size_contributions G C path :
  0 ≤ C →
  Z.of_nat (size (⋃ ((λ p, list_to_set (contribution G C p)) <$> path) : gset Z))
    ≤ Z.of_nat (length path) * C.
Proof.
  intros HC. induction path as [|p path IH].
  - rewrite fmap_nil, union_list_nil, size_empty. simpl. lia.
  - rewrite fmap_cons, union_list_cons.
    pose proof (size_union_le (list_to_set (contribution G C p))
                  (⋃ ((λ p, list_to_set (contribution G C p)) <$> path))).
    pose proof (size_list_to_set_le (contribution G C p)).
    pose proof (contribution_length G C p HC).
    simpl length. lia.
Qed.

(** ** Claims on [get_path_subgraph] *)

(** C2 (as amended): when every node of the path is in the graph the
    extraction succeeds, with either flag, and the nodes of the result
    include the whole path.  With a node of the path missing from the graph:
    with neighbours shown, asking for the neighbours of the first missing
    node raises the library's error naming that node; without neighbours,
    the extraction succeeds and keeps exactly the path nodes that are in the
    graph. *)
Theorem path_subgraph_membership G path max_neighbors :
  ((∀ p, p ∈ path → p ∈ nodes G) →
   ∀ show_neighbors, ∃ sub,
     get_path_subgraph G path show_neighbors max_neighbors = Ok sub ∧
     ∀ p, p ∈ path → p ∈ nodes sub) ∧
  (∀ before n after,
     path = before ++ n :: after →
     (∀ p, p ∈ before → p ∈ nodes G) → n ∉ nodes G →
     get_path_subgraph G path true max_neighbors = Raise (NetworkXError n)) ∧
  (∃ sub,
     get_path_subgraph G path false max_neighbors = Ok sub ∧
     ∀ n, n ∈ nodes sub ↔ n ∈ path ∧ n ∈ nodes G).
Proof.
  split; [|split].
  - intros Hin flag. unfold get_path_subgraph.
    rewrite (nodes_to_draw_ok _ _ _ _ Hin). simpl. eexists. split; [done|].
    intros p Hp. apply subgraph_nodes. split; [|by apply Hin].
    apply elem_of_union_l. by apply elem_of_list_to_set.
  - intros before n after -> Hin Hn. unfold get_path_subgraph, nodes_to_draw.
    by rewrite update_neighbors_raise.
  - unfold get_path_subgraph, nodes_to_draw. simpl. eexists. split; [done|].
    intros n. by rewrite subgraph_nodes, elem_of_list_to_set.
Qed.

Lemma path_subgraph_membership_witness :
  (∀ show_neighbors, ∃ sub,
     get_path_subgraph chain_graph [0; 1; 2] show_neighbors 1 = Ok sub ∧
     ∀ p, p ∈ [0; 1; 2] → p ∈ nodes sub) ∧
  get_path_subgraph chain_graph [0; 7; 2] true 1 = Raise (NetworkXError 7).
Proof.
  split.
  - apply (path_subgraph_membership chain_graph [0; 1; 2] 1).
    intros p Hp. vm_compute. set_solver.
  - apply (path_subgraph_membership chain_graph [0; 7; 2] 1) with [0] [2].
    + reflexivity.
    + intros p Hp. vm_compute. set_solver.
    + vm_compute. set_solver.
Defined.

(** C2 (as stated) fails: with neighbours not shown, a path node that is
    not in the graph raises nothing; the extraction succeeds and the node is
    missing from the result. *)
Lemma missing_path_node_dropped :
  7 ∈ [0; 7] ∧ (7 ∉ nodes chain_graph) ∧
  get_path_subgraph chain_graph [0; 7] false 20 = Ok [(0, [])] ∧
  7 ∉ nodes [(0, ([] : list Z))].
Proof.
  split; [set_solver|]. split; [vm_compute; set_solver|].
  split; [by vm_compute|]. vm_compute. set_solver.
Qed.

(** C3: with neighbours shown and a cap [C >= 0], on a path inside the
    graph, the extraction succeeds; the whole path is among the nodes of the
    result; every node of the result is a path node or one of the at most
    [C] neighbours its path node contributes; and the nodes beyond the path
    number at most [len(path) * C]. *)
Theorem capped_neighbors G path C :
  (∀ p, p ∈ path → p ∈ nodes G) → 0 ≤ C →
  ∃ sub,
    get_path_subgraph G path true C = Ok sub ∧
    (∀ p, p ∈ path → p ∈ nodes sub) ∧
    (∀ p, Z.of_nat (length (contribution G C p)) ≤ C) ∧
    (∀ p n, n ∈ contribution G C p → has_edge G p n) ∧
    (∀ n, n ∈ nodes sub → n ∈ path ∨ ∃ p, p ∈ path ∧ n ∈ contribution G C p) ∧
    Z.of_nat (size (list_to_set (nodes sub) ∖ list_to_set path : gset Z))
      ≤ Z.of_nat (length path) * C.
Proof.
  intros Hin HC. unfold get_path_subgraph.
  rewrite (nodes_to_draw_ok _ _ _ _ Hin). simpl. eexists. split; [done|].
  assert (∀ n, n ∈ nodes (subgraph G (list_to_set path ∪
            ⋃ ((λ p, list_to_set (contribution G C p)) <$> path))) →
          n ∈ path ∨ ∃ p, p ∈ path ∧ n ∈ contribution G C p) as Hsub.
  { intros n [Hn _]%subgraph_nodes. apply elem_of_union in Hn as [Hn|Hn].
    - left. by apply elem_of_list_to_set in Hn.
    - right. by apply elem_of_contributions. }
  repeat split.
  - intros p Hp. apply subgraph_nodes. split; [|by apply Hin].
    apply elem_of_union_l. by apply elem_of_list_to_set.
  - intros p. by apply contribution_length.
  - apply contribution_neighbors.
  - exact Hsub.
  - etrans; [|by apply (size_contributions G C path)].
    apply Nat2Z.inj_le, subseteq_size. intros n Hn.
    apply elem_of_difference in Hn as [Hn Hnp].
    apply elem_of_list_to_set in Hn. apply Hsub in Hn as [Hn|Hn].
    + destruct Hnp. by apply elem_of_list_to_set.
    + by apply elem_of_contributions.
Qed.

Lemma capped_neighbors_witness :
  ∃ sub,
    get_path_subgraph star_graph [1; 5] true 2 = Ok sub ∧
    (∀ p, p ∈ [1; 5] → p ∈ nodes sub) ∧
    (∀ p, Z.of_nat (length (contribution star_graph 2 p)) ≤ 2) ∧
    (∀ p n, n ∈ contribution star_graph 2 p → has_edge star_graph p n) ∧
    (∀ n, n ∈ nodes sub →
          n ∈ [1; 5] ∨ ∃ p, p ∈ [1; 5] ∧ n ∈ contribution star_graph 2 p) ∧
    Z.of_nat (size (list_to_set (nodes sub) ∖ list_to_set [1; 5] : gset Z))
      ≤ Z.of_nat (length [1; 5]) * 2.
Proof.
  apply (capped_neighbors star_graph [1; 5] 2).
  - intros p Hp. vm_compute. set_solver.
  - lia.
Defined.

(** C4: with neighbours not shown, on a path inside the graph, the
    extraction succeeds and the nodes of the result are exactly the nodes
    of the path. *)
Theorem path_only_nodes G path max_neighbors :
  (∀ p, p ∈ path → p ∈ nodes G) →
  ∃ sub,
    get_path_subgraph G path false max_neighbors = Ok sub ∧
    (∀ n, n ∈ nodes sub ↔ n ∈ path) ∧
    list_to_set (nodes sub) =@{gset Z} list_to_set path.
Proof.
  intros Hin. unfold get_path_subgraph, nodes_to_draw. simpl.
  eexists. split; [done|].
  assert (∀ n, n ∈ nodes (subgraph G (list_to_set path)) ↔ n ∈ path) as H.
  { intros n. rewrite subgraph_nodes, elem_of_list_to_set. naive_solver. }
  split; [done|]. apply set_eq. intros n. by rewrite !elem_of_list_to_set.
Qed.

Lemma path_only_nodes_witness :
  ∃ sub,
    get_path_subgraph star_graph [1; 5; 9] false 20 = Ok sub ∧
    (∀ n, n ∈ nodes sub ↔ n ∈ [1; 5; 9]) ∧
    list_to_set (nodes sub) =@{gset Z} list_to_set [1; 5; 9].
Proof.
  apply (path_only_nodes star_graph [1; 5; 9] 20).
  intros p Hp. vm_compute. set_solver.
Defined.

(** ** A negative cap *)

Lemma slice_to_negative l stop :
  stop < 0 →
  builtins.slice_to l stop = take (length l - Z.to_nat (- stop)) l.
Proof.
  intros H. unfold builtins.slice_to. destruct (Z.leb_spec 0 stop); [lia|].
  f_equal. lia.
Qed.

(** C10: a negative cap is neither an error nor a cap of zero.  The slice
    [neighbors[:max_neighbors]] then keeps all the neighbours of a path node
    but the last [|max_neighbors|]; these go into the node set, and on the
    star graph, path [1] and cap [-1], nodes off the path come out. *)
Theorem negative_cap_keeps_neighbors :
  (∀ G path C, C < 0 → (∀ p, p ∈ path → p ∈ nodes G) →
     (∀ p, contribution G C p
           = take (length (default [] (adj G p)) - Z.to_nat (- C))
                  (default [] (adj G p))) ∧
     nodes_to_draw G path true C
       = Ok (list_to_set path ∪
             ⋃ ((λ p, list_to_set (contribution G C p)) <$> path))) ∧
  (∃ G path C sub n,
     C < 0 ∧ get_path_subgraph G path true C = Ok sub ∧
     n ∈ nodes sub ∧ n ∉ path).
Proof.
  split.
  - intros G path C HC Hin. split.
    + intros p. by apply slice_to_negative.
    + by rewrite (nodes_to_draw_ok _ _ _ _ Hin).
  - exists star_graph, [1], (-1), [(1, [2; 3; 4]); (2, [1]); (3, [1]); (4, [1])], 2.
    split; [lia|]. split; [by vm_compute|]. split; vm_compute; set_solver.
Qed.

Lemma negative_cap_keeps_neighbors_witness :
  contribution star_graph (-1) 1 = [2; 3; 4] ∧
  nodes_to_draw star_graph [1] true (-1)
    = Ok (list_to_set [1] ∪
          ⋃ ((λ p, list_to_set (contribution star_graph (-1) p)) <$> [1])).
Proof.
  destruct negative_cap_keeps_neighbors as [H _].
  destruct (H star_graph [1] (-1)) as [Hc Hn].
  - lia.
  - intros p Hp. vm_compute. set_solver.
  - split; [|exact Hn]. rewrite Hc. vm_compute. reflexivity.
Defined.

(** ** The statistics *)

Lemma foldl_max_ge x rest : x ≤ foldl Z.max x rest ∧ ∀ d, d ∈ rest → d ≤ foldl Z.max x rest.
Proof.
  revert x. induction rest as [|y rest IH]; intros x; simpl.
  - split; [lia|]. intros d Hd. by apply not_elem_of_nil in Hd.
  - destruct (IH (Z.max x y)) as [H1 H2]. split; [lia|].
    intros d [->|Hd]%elem_of_cons; [lia|auto].
Qed.

Lemma foldl_max_elem_of x rest : foldl Z.max x rest ∈ x :: rest.
Proof.
  revert x. induction rest as [|y rest IH]; intros x; simpl.
  - left.
  - specialize (IH (Z.max x y)). apply elem_of_cons in IH as [IH|IH].
    + rewrite IH. destruct (Z.max_spec x y) as [[_ ->]|[_ ->]];
        [right; left|left].
    + by do 2 right.
Qed.

Lemma max_spec data m :
  builtins.max data = Ok m → m ∈ data ∧ ∀ d, d ∈ data → d ≤ m.
Proof.
  destruct data as [|x rest]; simpl; [done|]. intros [= <-].
  split; [apply foldl_max_elem_of|].
  destruct (foldl_max_ge x rest) as [H1 H2].
  intros d [->|Hd]%elem_of_cons; auto.
Qed.

Lemma inject_Z_nonzero n : n ≠ 0 → ¬ (inject_Z n == 0)%Q.
Proof. intros Hn. unfold Qeq. simpl. lia. Qed.

Lemma mean_spec data avg :
  statistics.mean data = Ok avg →
  (avg * inject_Z (Z.of_nat (length data)) == inject_Z (sum data))%Q.
Proof.
  unfold statistics.mean. destruct (Z.ltb_spec (Z.of_nat (length data)) 1); [done|].
  intros [= <-]. rewrite Qred_correct. field. apply inject_Z_nonzero. lia.
Qed.

Lemma sorted_spec data :
  StronglySorted Z.le (statistics.sorted data) ∧ statistics.sorted data ≡ₚ data.
Proof.
  split; [apply (StronglySorted_merge_sort _)|apply merge_sort_Permutation].
Qed.

Lemma median_spec data med :
  statistics.median data = Ok med →
  let s := statistics.sorted data in
  let n := length data in
  ((n mod 2 = 1)%nat → med = inject_Z (nth (n / 2) s 0)) ∧
  ((n mod 2 = 0)%nat →
   (med == inject_Z (nth (n / 2 - 1) s 0%Z + nth (n / 2) s 0%Z) / 2)%Q).
Proof.
  unfold statistics.median. simpl.
  assert (length (statistics.sorted data) = length data) as ->.
  { apply Permutation_length, sorted_spec. }
  case_decide; [done|]. case_decide as Hodd.
  - intros [= <-]. split; [done|]. intros H'. rewrite H' in Hodd. done.
  - intros [= <-]. split; [done|]. intros _. by rewrite Qred_correct.
Qed.

Lemma density_spec G :
  let N := number_of_nodes G in
  let E := number_of_edges G in
  (1 < N → (density G == inject_Z (2 * E) / inject_Z (N * (N - 1)))%Q) ∧
  (N ≤ 1 → density G = 0%Q).
Proof.
  simpl. unfold density. split.
  - intros HN. destruct (Z.eqb_spec (number_of_edges G) 0) as [->|HE]; simpl.
    + unfold Qeq. simpl. lia.
    + destruct (Z.leb_spec (number_of_nodes G) 1); [lia|].
      rewrite Qred_correct, (inject_Z_mult 2). field. apply inject_Z_nonzero. nia.
  - intros HN. destruct (Z.leb_spec (number_of_nodes G) 1); [|lia].
    by rewrite orb_true_r.
Qed.

(** ** Building the graph edge by edge *)

Lemma adj_app G G' m :
  adj (G ++ G') m = match adj G m with Some l => Some l | None => adj G' m end.
Proof.
  induction G as [|[k l] G IH]; simpl; [done|]. by case_decide.
Qed.

Lemma add_node_present G n : has_node G n → add_node G n = G.
Proof. unfold add_node. by destruct (has_node G n). Qed.

Lemma adj_add_node G n m :
  adj (add_node G n) m
    = match adj G m with
      | Some l => Some l
      | None => if decide (n = m) then Some [] else None
      end.
Proof.
  unfold add_node, has_node. case_bool_decide as Hn.
  - destruct (adj G m) eqn:E; [done|]. case_decide; [|done].
    subst. rewrite E in Hn. by destruct Hn.
  - rewrite adj_app. simpl. destruct (adj G m); [done|]. by case_decide.
Qed.

Lemma adj_set_nbr G u v m :
  adj (set_nbr G u v) m
    = if decide (m = u) then (λ l, dict_set l v) <$> adj G m else adj G m.
Proof.
  induction G as [|[k l] G IH]; simpl.
  - by case_decide.
  - destruct (decide (k = u)) as [->|Hk]; simpl.
    + destruct (decide (u = m)) as [->|Hm].
      * by rewrite decide_True.
      * by rewrite decide_False by done.
    + destruct (decide (k = m)) as [->|Hm].
      * by rewrite decide_False by done.
      * exact IH.
Qed.

Lemma elem_of_dict_set l k x : x ∈ dict_set l k ↔ x ∈ l ∨ x = k.
Proof.
  unfold dict_set. case_decide.
  - naive_solver.
  - rewrite elem_of_app, list_elem_of_singleton. naive_solver.
Qed.

Lemma set_nbr_present G u v : has_edge G u v → set_nbr G u v = G.
Proof.
  rewrite has_edge_spec. intros (nbrs & H & Hv).
  induction G as [|[k l] G IH]; simpl in *; [done|].
  case_decide.
  - injection H as ->. unfold dict_set. by rewrite decide_True.
  - f_equal. auto.
Qed.

Lemma has_node_add_node G n m : has_node (add_node G n) m ↔ has_node G m ∨ m = n.
Proof.
  unfold has_node. rewrite !bool_decide_spec, adj_add_node.
  destruct (adj G m); [naive_solver|]. case_decide.
  - naive_solver.
  - split; [by intros [? ?]|]. intros [[? ?]|?]; [done|congruence].
Qed.

Lemma has_edge_add_node G n a b : has_edge (add_node G n) a b ↔ has_edge G a b.
Proof.
  rewrite !has_edge_spec. setoid_rewrite adj_add_node.
  destruct (adj G a); [done|]. case_decide.
  - split; [|by intros (? & ? & _)]. intros (l & [= <-] & Hb).
    by apply not_elem_of_nil in Hb.
  - split; by intros (? & ? & _).
Qed.

Lemma has_node_set_nbr G u v m : has_node (set_nbr G u v) m ↔ has_node G m.
Proof.
  unfold has_node. rewrite !bool_decide_spec, adj_set_nbr.
  case_decide; [|done]. by rewrite fmap_is_Some.
Qed.

Lemma has_edge_set_nbr G u v a b :
  has_edge (set_nbr G u v) a b ↔ has_edge G a b ∨ (a = u ∧ b = v ∧ has_node G u).
Proof.
  rewrite !has_edge_spec. unfold has_node. rewrite bool_decide_spec.
  setoid_rewrite adj_set_nbr. case_decide as Ha.
  - subst a. split.
    + intros (l & H & Hb). apply fmap_Some in H as (l' & Hl' & ->).
      apply elem_of_dict_set in Hb as [Hb| ->]; eauto 8.
    + intros [(l & H & Hb)|(_ & -> & [l H])]; rewrite H; simpl;
        eexists; (split; [done|]); apply elem_of_dict_set; auto.
  - naive_solver.
Qed.

(** [G.add_edge(u, v)] adds the edge, seen from both ends, and nothing else. *)
Lemma has_edge_add_edge G u v a b :
  has_edge (add_edge G u v) a b
  ↔ has_edge G a b ∨ (a = u ∧ b = v) ∨ (a = v ∧ b = u).
Proof.
  unfold add_edge. rewrite !has_edge_set_nbr, !has_edge_add_node.
  rewrite has_node_set_nbr, !has_node_add_node. naive_solver.
Qed.

Lemma has_node_add_edge G u v m :
  has_node (add_edge G u v) m ↔ has_node G m ∨ m = u ∨ m = v.
Proof.
  unfold add_edge. rewrite !has_node_set_nbr, !has_node_add_node. naive_solver.
Qed.

(** Adding an edge that is there, in both directions, changes nothing. *)
Lemma add_edge_present G u v :
  has_edge G u v → has_edge G v u → add_edge G u v = G.
Proof.
  intros Huv Hvu. unfold add_edge.
  rewrite (add_node_present G u) by by eapply has_edge_has_node.
  rewrite (add_node_present G v) by by eapply has_edge_has_node.
  rewrite (set_nbr_present G u v) by done. by apply set_nbr_present.
Qed.

(** ** Degrees and the number of edges *)

Lemma sum_app l1 l2 : sum (l1 ++ l2) = sum l1 + sum l2.
Proof. unfold sum. induction l1 as [|x l1 IH]; simpl; lia. Qed.

Lemma degree_sum_add_node G n : sum (degree (add_node G n)).*2 = sum (degree G).*2.
Proof.
  unfold add_node. destruct (has_node G n); [done|].
  unfold degree. rewrite map_app, fmap_app, sum_app. simpl. lia.
Qed.

Lemma degree_sum_cons k l G :
  sum (degree ((k, l) :: G)).*2
    = Z.of_nat (length l) + (if decide (k ∈ l) then 1 else 0) + sum (degree G).*2.
Proof. reflexivity. Qed.

Lemma degree_sum_set_nbr G u v :
  has_node G u →
  sum (degree (set_nbr G u v)).*2
    = sum (degree G).*2
      + (if has_edge G u v then 0 else 1 + (if decide (u = v) then 1 else 0)).
Proof.
  unfold has_node, has_edge. rewrite bool_decide_spec.
  induction G as [|[k l] G IH]; cbn [set_nbr adj].
  - by intros [? ?].
  - destruct (decide (k = u)) as [->|Hk]; rewrite !degree_sum_cons.
    + intros _. unfold dict_set. destruct (decide (v ∈ l)) as [Hv|Hv].
      * rewrite bool_decide_eq_true_2 by done. lia.
      * rewrite bool_decide_eq_false_2 by done.
        rewrite length_app. simpl length.
        destruct (decide (u = v)) as [->|Huv].
        -- rewrite (decide_False (P := v ∈ l)) by done.
           rewrite decide_True by (apply elem_of_app; right; left). lia.
        -- destruct (decide (u ∈ l)) as [Hu|Hu].
           ++ rewrite decide_True by (apply elem_of_app; by left). lia.
           ++ rewrite decide_False; [lia|].
              rewrite elem_of_app, list_elem_of_singleton. naive_solver.
    + intros H. rewrite IH by done. lia.
Qed.

(** One [add_edge] of an edge that is not there: two more in the degree sum. *)
Lemma degree_sum_add_edge_new G u v :
  ¬ has_edge G u v → ¬ has_edge G v u →
  sum (degree (add_edge G u v)).*2 = sum (degree G).*2 + 2.
Proof.
  intros Huv Hvu. unfold add_edge.
  rewrite !degree_sum_set_nbr.
  2:{ apply has_node_add_node. left. apply has_node_add_node. by right. }
  2:{ apply has_node_set_nbr, has_node_add_node. by right. }
  rewrite !degree_sum_add_node.
  assert (has_edge (add_node (add_node G u) v) u v = false) as ->.
  { apply negb_true_iff, Is_true_true, negb_True. by rewrite !has_edge_add_node. }
  destruct (decide (u = v)) as [->|Hne].
  - assert (has_edge (set_nbr (add_node (add_node G v) v) v v) v v = true) as ->.
    { apply Is_true_true, has_edge_set_nbr. right. repeat split.
      apply has_node_add_node. by right. }
    lia.
  - assert (has_edge (set_nbr (add_node (add_node G u) v) u v) v u = false) as ->.
    { apply negb_true_iff, Is_true_true, negb_True.
      rewrite has_edge_set_nbr, !has_edge_add_node. naive_solver. }
    rewrite decide_False by done. lia.
Qed.

Lemma unordered_eq a b u v :
  unordered (a, b) = unordered (u, v) ↔ (a = u ∧ b = v) ∨ (a = v ∧ b = u).
Proof.
  unfold unordered. simpl. split.
  - intros [= H1 H2]. lia.
  - intros [[-> ->]|[-> ->]]; f_equal; lia.
Qed.

(** ** The handshake invariant *)

Lemma tracks_add_edge G S u v :
  tracks G S → tracks (add_edge G u v) ({[unordered (u, v)]} ∪ S).
Proof.
  intros [Hedge Hsum].
  assert (∀ a b, has_edge (add_edge G u v) a b
                 ↔ unordered (a, b) ∈ ({[unordered (u, v)]} ∪ S : gset (Z * Z))) as He.
  { intros a b. rewrite has_edge_add_edge, Hedge, elem_of_union, elem_of_singleton.
    rewrite unordered_eq. naive_solver. }
  split; [exact He|].
  destruct (decide (unordered (u, v) ∈ S)) as [Hin|Hnin].
  - assert (has_edge G u v) as Huv by by apply Hedge.
    assert (has_edge G v u) as Hvu.
    { apply Hedge. by rewrite (proj2 (unordered_eq v u u v)) by auto. }
    rewrite add_edge_present by done.
    by replace ({[unordered (u, v)]} ∪ S) with S by set_solver.
  - rewrite degree_sum_add_edge_new.
    + rewrite size_union by set_solver. rewrite size_singleton. lia.
    + by rewrite Hedge.
    + rewrite Hedge. by rewrite (proj2 (unordered_eq v u u v)) by auto.
Qed.

Lemma tracks_add_edges pairs G S :
  tracks G S → tracks (add_edges G pairs) (distinct_pairs pairs ∪ S).
Proof.
  revert G S. induction pairs as [|[u v] pairs IH]; intros G S HG.
  - unfold distinct_pairs. simpl.
    by replace (∅ ∪ S) with S by set_solver.
  - unfold add_edges. simpl.
    apply (tracks_add_edge _ _ u v), IH in HG.
    replace (distinct_pairs ((u, v) :: pairs) ∪ S)
      with (distinct_pairs pairs ∪ ({[unordered (u, v)]} ∪ S)); [exact HG|].
    unfold distinct_pairs. rewrite fmap_cons, list_to_set_cons. set_solver.
Qed.

(** The graph built from a list of pairs: its edges are the listed pairs,
    and its degrees add up to twice their number. *)
Lemma add_edges_handshake pairs :
  let G := add_edges empty_graph pairs in
  (∀ a b, has_edge G a b ↔ unordered (a, b) ∈ distinct_pairs pairs) ∧
  sum (degree G).*2 = 2 * Z.of_nat (size (distinct_pairs pairs)).
Proof.
  simpl. assert (tracks empty_graph ∅) as H.
  { split; [|done]. intros a b. unfold has_edge. simpl. set_solver. }
  apply (tracks_add_edges pairs) in H.
  by replace (distinct_pairs pairs ∪ ∅) with (distinct_pairs pairs) in H
    by set_solver.
Qed.


(** ** The loader *)

Lemma parse_line_pair G line G' :
  parse_line G line = Ok G' →
  G' = match line_pair line with
       | Some (u, v) => add_edge G u v
       | None => G
       end.
Proof.
  unfold parse_line, line_pair.
  destruct (Text.split (Text.strip_comment line)) as [|su [|sv d]];
    [by intros [= <-]..|].
  destruct (Text.int su) as [u|]; [|done].
  destruct (Text.int sv) as [v|]; [|done].
  destruct d; [|done]. by intros [= <-].
Qed.

Lemma parse_edgelist_add_edges lines G G' :
  parse_edgelist G lines = Ok G' → G' = add_edges G (listed_pairs lines).
Proof.
  revert G. induction lines as [|line lines IH]; intros G; simpl.
  - by intros [= <-].
  - destruct (parse_line G line) as [G1|e] eqn:Hline; simpl; [|done].
    intros H. apply IH in H as ->. apply parse_line_pair in Hline as ->.
    unfold listed_pairs. simpl. by destruct (line_pair line) as [[u v]|].
Qed.

Lemma parse_edgelist_app lines line G G1 :
  parse_edgelist G lines = Ok G1 →
  parse_edgelist G (lines ++ [line]) = parse_line G1 line.
Proof.
  revert G. induction lines as [|l lines IH]; intros G; simpl.
  - intros [= <-]. by destruct (parse_line G line).
  - destruct (parse_line G l) as [G2|e]; simpl; [|done]. apply IH.
Qed.

Lemma load_graph_handshake lines G :
  load_graph lines = Ok G →
  (∀ a b, has_edge G a b ↔ unordered (a, b) ∈ distinct_pairs (listed_pairs lines)) ∧
  sum (degree G).*2 = 2 * Z.of_nat (size (distinct_pairs (listed_pairs lines))).
Proof.
  intros ->%parse_edgelist_add_edges. apply add_edges_handshake.
Qed.





(** ** Repeated lines and self-loop lines *)

Lemma parse_edgelist_app_cons pre rest G G1 :
  parse_edgelist G pre = Ok G1 →
  parse_edgelist G (pre ++ rest) = parse_edgelist G1 rest.
Proof.
  revert G. induction pre as [|l pre IH]; intros G; simpl.
  - by intros [= <-].
  - destruct (parse_line G l) as [G2|e]; simpl; [|done]. apply IH.
Qed.






(** ** The representation invariant is kept *)

Lemma elem_of_adj G n l : NoDup (nodes G) → (n, l) ∈ G → adj G n = Some l.
Proof.
  unfold nodes. induction G as [|[k l'] G IH]; simpl.
  - intros _ H. by apply not_elem_of_nil in H.
  - rewrite NoDup_cons. intros [Hk HG] [[= -> ->]|Hin]%elem_of_cons.
    + by rewrite decide_True.
    + rewrite decide_False; [auto|]. intros ->. apply Hk.
      apply list_elem_of_fmap. by exists (n, l).
Qed.

Lemma wf_alt G :
  wf G ↔ NoDup (nodes G) ∧
         (∀ n l, adj G n = Some l → NoDup l) ∧
         (∀ u v, has_edge G u v → has_edge G v u).
Proof.
  unfold wf. split.
  - intros [Hnd HG]. rewrite Forall_forall in HG. repeat split; [done|..].
    + intros n l H%adj_elem_of. by apply (HG (n, l)).
    + intros u v. by apply wf_has_edge_sym; split; [|apply Forall_forall].
  - intros (Hnd & Hl & Hsym). split; [done|]. apply Forall_forall.
    intros [n l] Hin. simpl. pose proof (elem_of_adj _ _ _ Hnd Hin) as Hadj.
    split; [by eapply Hl|]. apply Forall_forall. intros v Hv.
    apply Hsym, has_edge_spec. eauto.
Qed.

Lemma nodes_set_nbr G u v : nodes (set_nbr G u v) = nodes G.
Proof.
  unfold nodes. induction G as [|[k l] G IH]; simpl; [done|].
  case_decide; simpl; [done|]. by f_equal.
Qed.

Lemma NoDup_nodes_add_node G n : NoDup (nodes G) → NoDup (nodes (add_node G n)).
Proof.
  unfold add_node. destruct (has_node G n) eqn:E; [done|].
  intros HG. unfold nodes. rewrite fmap_app. apply NoDup_app.
  repeat split; [done| |apply NoDup_singleton].
  intros x Hx [= ->]%list_elem_of_singleton.
  apply has_node_nodes in Hx. by rewrite E in Hx.
Qed.

Lemma NoDup_dict_set l k : NoDup l → NoDup (dict_set l k).
Proof.
  unfold dict_set. case_decide; [done|]. intros Hl. apply NoDup_app.
  repeat split; [done| |apply NoDup_singleton].
  by intros x Hx ->%list_elem_of_singleton.
Qed.

Lemma NoDup_adj_add_node G n :
  (∀ m l, adj G m = Some l → NoDup l) →
  ∀ m l, adj (add_node G n) m = Some l → NoDup l.
Proof.
  intros HG m l. rewrite adj_add_node. destruct (adj G m) eqn:E.
  - intros [= <-]. by eapply HG.
  - case_decide; [|done]. intros [= <-]. apply NoDup_nil_2.
Qed.

Lemma NoDup_adj_set_nbr G u v :
  (∀ m l, adj G m = Some l → NoDup l) →
  ∀ m l, adj (set_nbr G u v) m = Some l → NoDup l.
Proof.
  intros HG m l. rewrite adj_set_nbr. case_decide; [|apply HG].
  intros (l0 & H0 & ->)%fmap_Some. eapply NoDup_dict_set, HG, H0.
Qed.

Lemma wf_add_edge G u v : wf G → wf (add_edge G u v).
Proof.
  rewrite !wf_alt. intros (Hnd & Hl & Hsym). repeat split.
  - unfold add_edge. rewrite !nodes_set_nbr. by do 2 apply NoDup_nodes_add_node.
  - unfold add_edge. by do 2 apply NoDup_adj_set_nbr; do 2 apply NoDup_adj_add_node.
  - intros a b. rewrite !has_edge_add_edge. naive_solver.
Qed.

Lemma wf_add_edges pairs G : wf G → wf (add_edges G pairs).
Proof.
  revert G. induction pairs as [|[u v] pairs IH]; intros G HG; [done|].
  unfold add_edges. simpl. by apply IH, wf_add_edge.
Qed.

(** Every loaded graph is well formed. *)
Lemma wf_load_graph lines G : load_graph lines = Ok G → wf G.
Proof.
  intros ->%parse_edgelist_add_edges. apply wf_add_edges.
  apply wf_alt. repeat split; [apply NoDup_nil_2|done|done].
Qed.

Lemma nodes_subgraph_filter G s :
  nodes (subgraph G s) = filter (λ n, n ∈ s) (nodes G).
Proof.
  unfold subgraph, subgraph_view, nodes.
  assert (∀ G0 : Graph, (∀ e, e ∈ G0 → has_node G e.1) →
    (map (λ e : Z * list Z,
            (e.1, filter (λ nbr, nbr ∈ filter (λ n, has_node G n) s) e.2))
         (filter (λ e : Z * list Z, e.1 ∈ filter (λ n, has_node G n) s) G0)).*1
    = filter (λ n, n ∈ s) G0.*1) as H.
  { induction G0 as [|[k l] G0 IH]; intros Hin; [done|].
    rewrite fmap_cons, !filter_cons. simpl.
    assert (has_node G k) as Hk by (apply (Hin (k, l)); left).
    rewrite <- IH by (intros e He; apply Hin; by right).
    destruct (decide (k ∈ s)) as [Hs|Hs].
    - rewrite decide_True by by apply elem_of_filter. done.
    - rewrite decide_False; [done|]. rewrite elem_of_filter. naive_solver. }
  apply H. intros e He. apply has_node_nodes. by apply list_elem_of_fmap_2.
Qed.

(** A subgraph of a well-formed graph is well formed. *)
Lemma wf_subgraph G s : wf G → wf (subgraph G s).
Proof.
  rewrite !wf_alt. intros (Hnd & Hl & Hsym). repeat split.
  - rewrite nodes_subgraph_filter. by apply NoDup_filter.
  - intros n l. unfold subgraph. rewrite adj_restrict. case_decide; [|done].
    intros (l0 & H0 & ->)%fmap_Some. eapply NoDup_filter, Hl, H0.
  - intros u v. rewrite !subgraph_has_edge. intros (Huv & Hu & Hv & Hn).
    repeat split; auto. by eapply has_edge_has_node.
Qed.

(** ** The edge view *)

Lemma edges_from_sound seen G a b :
  (a, b) ∈ edges_from seen G → ∃ nbrs, (a, nbrs) ∈ G ∧ b ∈ nbrs.
Proof.
  revert seen. induction G as [|[n l] G IH]; intros seen; simpl.
  - intros H. by apply not_elem_of_nil in H.
  - rewrite elem_of_app. intros [H|H].
    + apply list_elem_of_fmap in H as (nbr & [= -> ->] & Hnbr).
      apply list_elem_of_filter in Hnbr as [_ Hnbr].
      exists l. split; [left|done].
    + apply IH in H as (nbrs & Hin & Hb). exists nbrs. split; [by right|done].
Qed.

Lemma edges_from_complete seen G a b la lb :
  NoDup (nodes G) →
  (a, la) ∈ G → (b, lb) ∈ G → b ∈ la → a ∈ lb → a ∉ seen → b ∉ seen →
  (a, b) ∈ edges_from seen G ∨ (b, a) ∈ edges_from seen G.
Proof.
  revert seen. unfold nodes.
  induction G as [|[n l] G IH]; intros seen Hnd Ha Hb Hba Hab Has Hbs.
  - by apply not_elem_of_nil in Ha.
  - simpl. rewrite !elem_of_app. rewrite fmap_cons in Hnd.
    apply NoDup_cons in Hnd as [Hn Hnd]. simpl in Hn.
    apply elem_of_cons in Ha as [[= -> ->]|Ha].
    { left. left. apply list_elem_of_fmap. exists b. split; [done|].
      by apply list_elem_of_filter. }
    apply elem_of_cons in Hb as [[= -> ->]|Hb].
    { right. left. apply list_elem_of_fmap. exists a. split; [done|].
      by apply list_elem_of_filter. }
    assert (a ≠ n) as Han.
    { intros ->. apply Hn, list_elem_of_fmap. by exists (n, la). }
    assert (b ≠ n) as Hbn.
    { intros ->. apply Hn, list_elem_of_fmap. by exists (n, lb). }
    destruct (IH (seen ∪ {[n]}) Hnd Ha Hb Hba Hab) as [H|H];
      [set_solver|set_solver|auto..].
Qed.

(** In a well-formed graph [G.edges()] lists each edge, in one orientation
    or the other. *)
Lemma edges_spec G a b :
  wf G → (a, b) ∈ edges G ∨ (b, a) ∈ edges G ↔ has_edge G a b.
Proof.
  intros Hwf. pose proof Hwf as (Hnd & _ & Hsym)%wf_alt. split.
  - intros [H|H]; apply edges_from_sound in H as (nbrs & Hin & Hb).
    + apply has_edge_spec. exists nbrs. split; [by apply elem_of_adj|done].
    + apply Hsym, has_edge_spec. exists nbrs. split; [by apply elem_of_adj|done].
  - intros Hab. pose proof (Hsym _ _ Hab) as Hba.
    apply has_edge_spec in Hab as (la & Ha & Hbla).
    apply has_edge_spec in Hba as (lb & Hb & Halb).
    eapply (edges_from_complete ∅); eauto using adj_elem_of; set_solver.
Qed.

(** C5: the edges of the returned subgraph are the edges of the graph with
    both ends in the computed node set [nodes_to_draw] (equivalently, with
    both ends among the nodes of the result), for either flag and any cap;
    and they are what [subgraph.edges()] lists, each in one orientation or
    the other. *)
Theorem induced_edges G path show_neighbors max_neighbors sub :
  wf G →
  get_path_subgraph G path show_neighbors max_neighbors = Ok sub →
  ∃ drawn,
    nodes_to_draw G path show_neighbors max_neighbors = Ok drawn ∧
    (∀ u v, has_edge sub u v ↔ has_edge G u v ∧ u ∈ drawn ∧ v ∈ drawn) ∧
    (∀ u v, has_edge sub u v ↔ has_edge G u v ∧ u ∈ nodes sub ∧ v ∈ nodes sub) ∧
    (∀ u v, (u, v) ∈ edges sub ∨ (v, u) ∈ edges sub
            ↔ has_edge G u v ∧ u ∈ drawn ∧ v ∈ drawn).
Proof.
  intros Hwf. unfold get_path_subgraph.
  destruct (nodes_to_draw G path show_neighbors max_neighbors) as [drawn|e];
    simpl; [|done].
  intros [= <-]. exists drawn. split; [done|].
  assert (∀ u v, has_edge (subgraph G drawn) u v
                 ↔ has_edge G u v ∧ u ∈ drawn ∧ v ∈ drawn) as H.
  { intros u v. rewrite subgraph_has_edge. split; [naive_solver|].
    intros (Huv & Hu & Hv). repeat split; try done.
    eapply has_edge_has_node, wf_has_edge_sym; eauto. }
  split; [done|]. split.
  - intros u v. rewrite H, !subgraph_nodes. split; [|naive_solver].
    intros (Huv & Hu & Hv). repeat split; try done.
    + by eapply has_node_nodes, has_edge_has_node.
    + eapply has_node_nodes, has_edge_has_node, wf_has_edge_sym; eauto.
  - intros u v. rewrite edges_spec by by apply wf_subgraph. apply H.
Qed.

Lemma induced_edges_witness :
  ∃ drawn,
    nodes_to_draw star_graph [1; 5] true 2 = Ok drawn ∧
    (∀ u v, has_edge star_path_subgraph u v
            ↔ has_edge star_graph u v ∧ u ∈ drawn ∧ v ∈ drawn) ∧
    (∀ u v, has_edge star_path_subgraph u v
            ↔ has_edge star_graph u v
              ∧ u ∈ nodes star_path_subgraph ∧ v ∈ nodes star_path_subgraph) ∧
    (∀ u v, (u, v) ∈ edges star_path_subgraph ∨ (v, u) ∈ edges star_path_subgraph
            ↔ has_edge star_graph u v ∧ u ∈ drawn ∧ v ∈ drawn).
Proof.
  apply (induced_edges star_graph [1; 5] true 2).
  - apply (bool_decide_unpack _). vm_compute. exact I.
  - vm_compute. reflexivity.
Defined.

(** * Further properties of the code *)

(** ** Order of nodes and neighbours in a loaded graph *)

Lemma elem_of_first_seen l x : x ∈ first_seen l ↔ x ∈ l.
Proof.
  unfold first_seen. by rewrite elem_of_reverse, elem_of_remove_dups, elem_of_reverse.
Qed.

Lemma first_seen_snoc l x : first_seen (l ++ [x]) = dict_set (first_seen l) x.
Proof.
  unfold first_seen, dict_set. rewrite reverse_app. simpl.
  destruct (decide_rel elem_of x (reverse l)) as [Hx|Hx].
  - rewrite decide_True; [done|]. by apply elem_of_first_seen, elem_of_reverse.
  - rewrite decide_False; [by rewrite reverse_cons|].
    intros H. by apply Hx, elem_of_reverse, elem_of_first_seen.
Qed.

Lemma nodes_add_node G n : nodes (add_node G n) = dict_set (nodes G) n.
Proof.
  unfold add_node, dict_set. destruct (has_node G n) eqn:E.
  - rewrite decide_True; [done|]. apply has_node_nodes. by rewrite E.
  - rewrite decide_False.
    + unfold nodes. by rewrite fmap_app.
    + intros H%has_node_nodes. by rewrite E in H.
Qed.

Lemma nodes_add_edge G u v : nodes (add_edge G u v) = dict_set (dict_set (nodes G) u) v.
Proof. unfold add_edge. by rewrite !nodes_set_nbr, !nodes_add_node. Qed.

Lemma add_edges_snoc G pairs u v :
  add_edges G (pairs ++ [(u, v)]) = add_edge (add_edges G pairs) u v.
Proof. unfold add_edges. by rewrite foldl_app. Qed.

Lemma endpoints_snoc pairs u v : endpoints (pairs ++ [(u, v)]) = (endpoints pairs ++ [u]) ++ [v].
Proof. unfold endpoints. rewrite bind_app. simpl. by rewrite <- app_assoc. Qed.

Lemma partners_snoc n pairs u v :
  partners n (pairs ++ [(u, v)])
    = (partners n pairs ++ (if decide (u = n) then [v] else []))
        ++ (if decide (v = n) then [u] else []).
Proof.
  unfold partners. rewrite bind_app. simpl. by rewrite app_nil_r, <- app_assoc.
Qed.

Lemma partners_not_endpoint n pairs : n ∉ endpoints pairs → partners n pairs = [].
Proof.
  unfold endpoints, partners. induction pairs as [|[u v] pairs IH]; [done|].
  rewrite !bind_cons. cbn [fst snd app].
  rewrite !not_elem_of_cons. intros (Hu & Hv & Hn).
  rewrite IH by done. by rewrite !decide_False by done.
Qed.

Lemma partners_endpoint n pairs : n ∈ endpoints pairs → partners n pairs ≠ [].
Proof.
  unfold endpoints, partners. induction pairs as [|[u v] pairs IH].
  - intros H. by apply not_elem_of_nil in H.
  - rewrite !bind_cons. cbn [fst snd app].
    rewrite !elem_of_cons. intros [->|[->|Hn]].
    + by rewrite decide_True.
    + rewrite (decide_True (P := v = v)) by done. by destruct (decide (u = v)).
    + intros H. apply app_eq_nil in H as [_ H]. by apply IH.
Qed.

Lemma nodes_add_edges pairs : nodes (add_edges empty_graph pairs) = first_seen (endpoints pairs).
Proof.
  induction pairs as [|[u v] pairs IH] using rev_ind; [done|].
  by rewrite add_edges_snoc, nodes_add_edge, IH, endpoints_snoc, !first_seen_snoc.
Qed.

Lemma adj_add_edges pairs n :
  adj (add_edges empty_graph pairs) n
    = if decide (n ∈ endpoints pairs) then Some (first_seen (partners n pairs)) else None.
Proof.
  induction pairs as [|[u v] pairs IH] using rev_ind.
  - rewrite decide_False; [done|]. apply not_elem_of_nil.
  - rewrite add_edges_snoc. unfold add_edge.
    rewrite !adj_set_nbr, !adj_add_node, IH, partners_snoc, endpoints_snoc.
    clear IH.
    destruct (decide (n ∈ endpoints pairs)) as [Hn|Hn];
      [|rewrite (partners_not_endpoint _ _ Hn)];
      repeat case_decide; simplify_eq;
      rewrite ?app_nil_r, ?first_seen_snoc; simpl; try done; set_solver.
Qed.

(** X1: in a loaded graph the nodes stand in the order in which the file
    first names them, and the neighbours of a node stand in the order in
    which the file first joins them to it; a node that is not named has no
    entry. *)
Theorem loaded_graph_order lines G :
  load_graph lines = Ok G →
  nodes G = first_seen (endpoints (listed_pairs lines)) ∧
  ∀ n, adj G n = if decide (n ∈ endpoints (listed_pairs lines))
                 then Some (first_seen (partners n (listed_pairs lines)))
                 else None.
Proof.
  intros ->%parse_edgelist_add_edges. split; [apply nodes_add_edges|].
  intros n. apply adj_add_edges.
Qed.

Lemma loaded_graph_order_witness :
  nodes star_graph = first_seen (endpoints (listed_pairs star_lines)) ∧
  adj star_graph 1 = Some [2; 3; 4; 5].
Proof.
  destruct (loaded_graph_order star_lines star_graph) as [Hn Ha].
  - vm_compute. reflexivity.
  - split; [exact Hn|]. rewrite Ha. vm_compute. reflexivity.
Defined.

(** ** What a loaded graph holds *)

Lemma elem_of_endpoints pairs n :
  n ∈ endpoints pairs ↔ ∃ u v, (u, v) ∈ pairs ∧ (n = u ∨ n = v).
Proof.
  unfold endpoints. rewrite list_elem_of_bind. split.
  - intros ([u v] & Hn & Hin). simpl in Hn. exists u, v. set_solver.
  - intros (u & v & Hin & Hn). exists (u, v). simpl. set_solver.
Qed.

Lemma elem_of_distinct_pairs pairs a b :
  unordered (a, b) ∈ distinct_pairs pairs ↔ (a, b) ∈ pairs ∨ (b, a) ∈ pairs.
Proof.
  unfold distinct_pairs. rewrite elem_of_list_to_set, list_elem_of_fmap. split.
  - intros ([u v] & Heq & Hin). apply unordered_eq in Heq as [[-> ->]|[-> ->]]; auto.
  - intros [H|H]; [by exists (a, b)|]. exists (b, a). split; [|done].
    apply unordered_eq. auto.
Qed.

(** X2: a loaded graph holds what the file lists and nothing else: its
    nodes are the ends of the listed pairs, and two nodes are joined exactly
    when the file lists them as a pair, in one order or the other. *)
Theorem loaded_graph_content lines G :
  load_graph lines = Ok G →
  (∀ n, n ∈ nodes G ↔ ∃ u v, (u, v) ∈ listed_pairs lines ∧ (n = u ∨ n = v)) ∧
  (∀ a b, has_edge G a b
          ↔ (a, b) ∈ listed_pairs lines ∨ (b, a) ∈ listed_pairs lines).
Proof.
  intros Hload. split.
  - intros n. apply parse_edgelist_add_edges in Hload as ->.
    by rewrite nodes_add_edges, elem_of_first_seen, elem_of_endpoints.
  - intros a b. apply load_graph_handshake in Hload as [H _].
    by rewrite H, elem_of_distinct_pairs.
Qed.

Lemma loaded_graph_content_witness :
  (∀ n, n ∈ nodes star_graph
        ↔ ∃ u v, (u, v) ∈ listed_pairs star_lines ∧ (n = u ∨ n = v)) ∧
  (∀ a b, has_edge star_graph a b
          ↔ (a, b) ∈ listed_pairs star_lines ∨ (b, a) ∈ listed_pairs star_lines).
Proof.
  apply (loaded_graph_content star_lines star_graph). vm_compute. reflexivity.
Defined.

Lemma elem_of_degree G n d :
  (n, d) ∈ degree G →
  ∃ l, (n, l) ∈ G ∧ d = Z.of_nat (length l) + (if decide (n ∈ l) then 1 else 0).
Proof.
  unfold degree. intros ([m l] & [= -> ->] & Hin)%list_elem_of_fmap. eauto.
Qed.

(** X3: a loaded graph satisfies the invariant of the graph class (no node
    and no neighbour twice, every adjacency mirrored), every neighbour in
    it is a node, and no node in it is isolated: every degree the
    statistics step collects is at least one. *)
Theorem loaded_graph_invariant lines G :
  load_graph lines = Ok G →
  wf G ∧
  (∀ u v, has_edge G u v → v ∈ nodes G) ∧
  (∀ n l, adj G n = Some l → l ≠ []) ∧
  (∀ d, d ∈ (degree G).*2 → 1 ≤ d).
Proof.
  intros Hload. pose proof (wf_load_graph _ _ Hload) as Hwf.
  assert (∀ n l, adj G n = Some l → l ≠ []) as Hne.
  { intros n l. apply parse_edgelist_add_edges in Hload as ->.
    rewrite adj_add_edges. case_decide as Hn; [|done]. intros [= <-] H.
    apply (partners_endpoint _ _ Hn). apply elem_of_nil_inv. intros x Hx.
    apply elem_of_first_seen in Hx. rewrite H in Hx. by apply not_elem_of_nil in Hx. }
  repeat split; [apply Hwf..| | |].
  - intros u v Huv. eapply has_node_nodes, has_edge_has_node, wf_has_edge_sym; eauto.
  - exact Hne.
  - intros d ([n d'] & -> & Hd)%list_elem_of_fmap. simpl.
    apply elem_of_degree in Hd as (l & Hin & ->).
    apply wf_alt in Hwf as (Hnd & _). apply (elem_of_adj _ _ _ Hnd), Hne in Hin.
    destruct l; [done|]. simpl length. case_decide; lia.
Qed.

Lemma loaded_graph_invariant_witness :
  wf star_graph ∧
  (∀ u v, has_edge star_graph u v → v ∈ nodes star_graph) ∧
  (∀ n l, adj star_graph n = Some l → l ≠ []) ∧
  (∀ d, d ∈ (degree star_graph).*2 → 1 ≤ d).
Proof.
  apply (loaded_graph_invariant star_lines star_graph). vm_compute. reflexivity.
Defined.

(** ** Lines that do not load, and text that is passed over *)

Lemma parse_line_raise G line e : parse_line G line = Raise e → ∃ msg, e = TypeError msg.
Proof.
  unfold parse_line.
  destruct (Text.split (Text.strip_comment line)) as [|su [|sv d]]; [done..|].
  destruct (Text.int su), (Text.int sv), d; try done; intros [= <-]; eauto.
Qed.

Lemma parse_edgelist_raise lines G e :
  parse_edgelist G lines = Raise e → ∃ msg, e = TypeError msg.
Proof.
  revert G. induction lines as [|line lines IH]; intros G; simpl; [done|].
  destruct (parse_line G line) as [G'|e'] eqn:Hline; simpl.
  - apply IH.
  - intros [= <-]. by eapply parse_line_raise.
Qed.

Lemma strip_comment_app s t :
  Text.strip_comment (s ++ String "#" t)%string = Text.strip_comment s.
Proof.
  induction s as [|c s IH]; simpl; [done|].
  destruct (Ascii.eqb c "#"); [done|]. by rewrite IH.
Qed.

(** X6: adding an edge a second time, in either order of its ends, changes
    nothing, whatever the graph; and the two orders of the ends give the
    same nodes and the same edges. *)
Theorem add_edge_again G u v :
  add_edge (add_edge G u v) u v = add_edge G u v ∧
  add_edge (add_edge G u v) v u = add_edge G u v ∧
  (∀ n, has_node (add_edge G u v) n ↔ has_node (add_edge G v u) n) ∧
  (∀ a b, has_edge (add_edge G u v) a b ↔ has_edge (add_edge G v u) a b).
Proof.
  repeat split.
  - apply add_edge_present; apply has_edge_add_edge; auto.
  - apply add_edge_present; apply has_edge_add_edge; auto.
  - rewrite !has_node_add_edge. naive_solver.
  - rewrite !has_node_add_edge. naive_solver.
  - rewrite !has_edge_add_edge. naive_solver.
  - rewrite !has_edge_add_edge. naive_solver.
Qed.

(** ** When the statistics succeed, and what they are bounded by *)

Lemma degrees_length G : length (degree G).*2 = length G.
Proof. unfold degree. by rewrite length_fmap, length_map. Qed.

Lemma degrees_nonneg G d : d ∈ (degree G).*2 → 0 ≤ d.
Proof.
  intros ([n d'] & -> & Hd)%list_elem_of_fmap. simpl.
  apply elem_of_degree in Hd as (l & _ & ->). case_decide; lia.
Qed.

Lemma mean_ok data :
  data ≠ [] → ∃ avg, statistics.mean data = Ok avg.
Proof.
  intros Hne. unfold statistics.mean.
  destruct (Z.ltb_spec (Z.of_nat (length data)) 1); [|eauto].
  destruct data; [done|]. simpl in *. lia.
Qed.

Lemma median_ok data :
  data ≠ [] → ∃ med, statistics.median data = Ok med.
Proof.
  intros Hne. unfold statistics.median. simpl.
  assert (length (statistics.sorted data) = length data) as ->
    by apply Permutation_length, sorted_spec.
  case_decide as H0; [by destruct data|]. case_decide; eauto.
Qed.

Lemma stats_ok G :
  G ≠ [] →
  ∃ avg med mx,
    statistics.mean (degree G).*2 = Ok avg ∧
    statistics.median (degree G).*2 = Ok med ∧
    builtins.max (degree G).*2 = Ok mx ∧
    get_and_print_stats G
      = Ok (Report.make (number_of_nodes G) (number_of_edges G) (density G) avg med mx,
            ((degree G).*2, avg, med)).
Proof.
  intros HG.
  assert ((degree G).*2 ≠ []) as Hne.
  { intros H. apply (f_equal length) in H. rewrite degrees_length in H.
    by destruct G. }
  destruct (mean_ok _ Hne) as [avg Havg], (median_ok _ Hne) as [med Hmed].
  assert (∃ mx, builtins.max (degree G).*2 = Ok mx) as [mx Hmx].
  { destruct ((degree G).*2); [done|]. simpl. eauto. }
  exists avg, med, mx. repeat split; try done.
  unfold get_and_print_stats. rewrite Havg, Hmed, Hmx. done.
Qed.

(** X7: the statistics step fails exactly on the graph without nodes; on
    every other graph it returns one degree per node. *)
Theorem stats_fail_iff_empty G :
  ((∃ e, get_and_print_stats G = Raise e) ↔ number_of_nodes G = 0) ∧
  (∀ report degrees avg med,
     get_and_print_stats G = Ok (report, (degrees, avg, med)) →
     Z.of_nat (length degrees) = number_of_nodes G ∧ 0 < number_of_nodes G).
Proof.
  destruct (decide (G = [])) as [->|HG].
  - split; [split; [done|]|done]. intros _. by eexists.
  - destruct (stats_ok G HG) as (avg & med & mx & _ & _ & _ & Hrun).
    rewrite Hrun. unfold number_of_nodes. split.
    + split; [by intros [e ?]|]. destruct G; [done|]. simpl. lia.
    + intros ???? [= <- <- <- <-]. rewrite degrees_length.
      split; [done|]. destruct G; [done|]. simpl. lia.
Qed.

Lemma stats_fail_iff_empty_witness :
  Z.of_nat (length (degree chain_graph).*2) = number_of_nodes chain_graph ∧
  0 < number_of_nodes chain_graph.
Proof.
  destruct (stats_fail_iff_empty chain_graph) as [_ H].
  apply (H (Report.make 4 3 (1 # 2) (3 # 2) (3 # 2) 2) _ (3 # 2)%Q (3 # 2)%Q).
  vm_compute. reflexivity.
Defined.

Lemma Qfrac_bounds s n lo hi :
  0 < n → lo * n ≤ s → s ≤ hi * n →
  (inject_Z lo <= inject_Z s / inject_Z n)%Q ∧ (inject_Z s / inject_Z n <= inject_Z hi)%Q.
Proof.
  intros Hn Hlo Hhi. destruct n as [|p|p]; [lia| |lia].
  unfold Qle, Qdiv, Qmult, Qinv, inject_Z. simpl. lia.
Qed.

Lemma sum_bounds data lo hi :
  (∀ d, d ∈ data → lo ≤ d ≤ hi) →
  lo * Z.of_nat (length data) ≤ sum data ≤ hi * Z.of_nat (length data).
Proof.
  unfold sum. induction data as [|x data IH]; intros H; simpl foldr; simpl length.
  - lia.
  - pose proof (H x (list_elem_of_here _ _)) as Hx.
    assert (∀ d, d ∈ data → lo ≤ d ≤ hi) as H' by (intros d Hd; apply H; by right).
    specialize (IH H'). lia.
Qed.

Lemma mean_bounds data avg lo hi :
  (∀ d, d ∈ data → lo ≤ d ≤ hi) →
  statistics.mean data = Ok avg → (inject_Z lo <= avg)%Q ∧ (avg <= inject_Z hi)%Q.
Proof.
  intros Hb. unfold statistics.mean.
  destruct (Z.ltb_spec (Z.of_nat (length data)) 1); [done|]. intros [= <-].
  rewrite Qred_correct. pose proof (sum_bounds _ _ _ Hb).
  apply Qfrac_bounds; lia.
Qed.

Lemma median_bounds data med lo hi :
  (∀ d, d ∈ data → lo ≤ d ≤ hi) →
  statistics.median data = Ok med → (inject_Z lo <= med)%Q ∧ (med <= inject_Z hi)%Q.
Proof.
  intros Hb. unfold statistics.median. cbv zeta.
  pose proof (sorted_spec data) as [_ Hperm].
  assert (length (statistics.sorted data) = length data) as Hlen
    by by apply Permutation_length.
  assert (∀ i, (i < length data)%nat →
               lo ≤ nth i (statistics.sorted data) 0 ≤ hi) as Hnth.
  { intros i Hi. apply Hb, list_elem_of_In.
    eapply Permutation_in; [exact Hperm|]. apply nth_In. lia. }
  rewrite Hlen.
  assert (length data ≠ 0%nat → length data / 2 < length data)%nat as Hi
    by (intros ?; apply Nat.div_lt; lia).
  set (i := (length data / 2)%nat) in *.
  case_decide as H0; [done|]. specialize (Hi H0).
  case_decide as Hodd; intros [= <-].
  - rewrite <- !Zle_Qle. by apply Hnth.
  - pose proof (Hnth _ Hi). pose proof (Hnth (i - 1)%nat ltac:(lia)).
    rewrite Qred_correct. change 2%Q with (inject_Z 2). apply Qfrac_bounds; lia.
Qed.

(** X8: in every report the mean and the median lie between zero and the
    maximum degree, and so does every degree that is returned; the two
    marker lines of the histogram can never fall outside the data. *)
Theorem stats_within_range G report degrees avg med :
  get_and_print_stats G = Ok (report, (degrees, avg, med)) →
  let mx := Report.max_degree report in
  (0 <= avg)%Q ∧ (avg <= inject_Z mx)%Q ∧
  (0 <= med)%Q ∧ (med <= inject_Z mx)%Q ∧
  (∀ d, d ∈ degrees → 0 ≤ d ≤ mx) ∧ mx ∈ degrees.
Proof.
  destruct (decide (G = [])) as [->|HG]; [done|].
  destruct (stats_ok G HG) as (avg' & med' & mx & Havg & Hmed & Hmx & Hrun).
  rewrite Hrun. intros [= <- <- <- <-]. simpl.
  apply max_spec in Hmx as [Hin Hmax].
  assert (∀ d, d ∈ (degree G).*2 → 0 ≤ d ≤ mx) as Hb.
  { intros d Hd. split; [by eapply degrees_nonneg|by apply Hmax]. }
  destruct (mean_bounds _ _ _ _ Hb Havg), (median_bounds _ _ _ _ Hb Hmed).
  repeat split; try done; by apply Hb.
Qed.

Lemma stats_within_range_witness :
  (0 <= 3 # 2)%Q ∧ (3 # 2 <= inject_Z 2)%Q ∧ (0 <= 3 # 2)%Q ∧ (3 # 2 <= inject_Z 2)%Q ∧
  (∀ d, d ∈ [1; 2; 2; 1] → 0 ≤ d ≤ 2) ∧ 2 ∈ [1; 2; 2; 1].
Proof.
  apply (stats_within_range chain_graph
           (Report.make 4 3 (1 # 2) (3 # 2) (3 # 2) 2) [1; 2; 2; 1] (3 # 2) (3 # 2)).
  vm_compute. reflexivity.
Defined.

(** ** The order of the degrees does not matter *)

Lemma sum_Permutation l l' : l ≡ₚ l' → sum l = sum l'.
Proof. unfold sum. induction 1; simpl; lia. Qed.

Lemma sorted_Permutation l l' : l ≡ₚ l' → statistics.sorted l = statistics.sorted l'.
Proof.
  intros H. apply (StronglySorted_unique Z.le); [apply sorted_spec..|].
  destruct (sorted_spec l) as [_ ->], (sorted_spec l') as [_ ->]. done.
Qed.

Lemma max_Permutation l l' : l ≡ₚ l' → builtins.max l = builtins.max l'.
Proof.
  intros H. destruct l as [|x l].
  - by apply Permutation_nil_l in H as <-.
  - destruct l' as [|x' l']; [by apply Permutation_nil_r in H|].
    destruct (builtins.max (x :: l)) as [m|] eqn:Hm; [|done].
    destruct (builtins.max (x' :: l')) as [m'|] eqn:Hm'; [|done].
    apply max_spec in Hm as [Hin Hle], Hm' as [Hin' Hle'].
    f_equal. apply Z.le_antisymm.
    + apply Hle'. by rewrite <- H.
    + apply Hle. by rewrite H.
Qed.

(** X10: the mean, the median and the maximum depend on the degrees only,
    not on the order in which the graph lists its nodes: on two lists that
    are permutations of one another each of the three gives the same
    result, a failure included. *)
Theorem statistics_ignore_order data data' :
  data ≡ₚ data' →
  statistics.mean data = statistics.mean data' ∧
  statistics.median data = statistics.median data' ∧
  builtins.max data = builtins.max data'.
Proof.
  intros H. repeat split.
  - unfold statistics.mean.
    by rewrite (Permutation_length H), (sum_Permutation _ _ H).
  - unfold statistics.median. by rewrite (sorted_Permutation _ _ H).
  - by apply max_Permutation.
Qed.

Lemma statistics_ignore_order_witness :
  statistics.mean [1; 2; 2; 1] = statistics.mean [2; 1; 1; 2] ∧
  statistics.median [1; 2; 2; 1] = statistics.median [2; 1; 1; 2] ∧
  builtins.max [1; 2; 2; 1] = builtins.max [2; 1; 1; 2].
Proof.
  apply (statistics_ignore_order [1; 2; 2; 1] [2; 1; 1; 2]).
  apply (bool_decide_unpack _). vm_compute. exact I.
Defined.

(** ** Density of a graph without loops *)

Lemma degree_below_nodes G n l :
  wf G → loop_free G → (n, l) ∈ G →
  Z.of_nat (length l) + (if decide (n ∈ l) then 1 else 0) ≤ number_of_nodes G - 1.
Proof.
  intros Hwf Hfree Hin. pose proof Hwf as (Hnd & Hl & Hsym)%wf_alt.
  pose proof (elem_of_adj _ _ _ Hnd Hin) as Hadj.
  unfold loop_free in Hfree. rewrite Forall_forall in Hfree.
  pose proof (Hfree _ Hin) as Hn. simpl in Hn. rewrite decide_False by done.
  assert (length (n :: l) ≤ length (nodes G))%nat as Hlen.
  { apply submseteq_length, NoDup_submseteq.
    - apply NoDup_cons. split; [done|]. by eapply Hl.
    - intros x [->|Hx]%elem_of_cons.
      + apply adj_is_Some. eauto.
      + eapply has_node_nodes, has_edge_has_node, Hsym, has_edge_spec. eauto. }
  unfold nodes in Hlen. rewrite length_fmap in Hlen. simpl in Hlen.
  unfold number_of_nodes. lia.
Qed.

Lemma degree_sum_below G :
  wf G → loop_free G →
  sum (degree G).*2 ≤ (number_of_nodes G - 1) * number_of_nodes G.
Proof.
  intros Hwf Hfree.
  assert (∀ d, d ∈ (degree G).*2 → 0 ≤ d ≤ number_of_nodes G - 1) as Hb.
  { intros d Hd. split; [by eapply degrees_nonneg|].
    apply list_elem_of_fmap in Hd as ([n d'] & -> & Hd). simpl.
    apply elem_of_degree in Hd as (l & Hin & ->). by apply degree_below_nodes. }
  apply sum_bounds in Hb as [_ Hb]. by rewrite degrees_length in Hb.
Qed.

Lemma sum_nonneg l : (∀ d, d ∈ l → 0 ≤ d) → 0 ≤ sum l.
Proof.
  unfold sum. induction l as [|x l IH]; intros H; simpl; [lia|].
  pose proof (H x (list_elem_of_here _ _)).
  assert (∀ d, d ∈ l → 0 ≤ d) as Hl by (intros ? ?; apply H; by right).
  specialize (IH Hl). lia.
Qed.

(** X11: the density is never negative, and for a well-formed graph
    without loops it is at most one.  Loops are what can push it above one:
    an edge with a loop at either end has density three. *)
Theorem density_in_unit_interval G :
  (0 <= density G)%Q ∧
  (wf G → loop_free G → (density G <= 1)%Q) ∧
  (wf looped_graph ∧ density looped_graph = 3%Q).
Proof.
  assert (0 ≤ number_of_edges G) as HE.
  { unfold number_of_edges. apply Z.div_pos; [|lia].
    apply sum_nonneg, degrees_nonneg. }
  split; [|split].
  - destruct (Z.leb_spec (number_of_nodes G) 1) as [HN|HN].
    + destruct (density_spec G) as [_ Hd]. by rewrite (Hd HN).
    + destruct (density_spec G) as [Hd _]. rewrite (Hd HN).
      change 0%Q with (inject_Z 0).
      apply (Qfrac_bounds _ _ 0 (2 * number_of_edges G + 1)); nia.
  - intros Hwf Hfree. destruct (Z.leb_spec (number_of_nodes G) 1) as [HN|HN].
    + destruct (density_spec G) as [_ Hd]. by rewrite (Hd HN).
    + destruct (density_spec G) as [Hd _]. rewrite (Hd HN).
      pose proof (degree_sum_below G Hwf Hfree) as Hs.
      assert (2 * number_of_edges G ≤ sum (degree G).*2) as H2.
      { unfold number_of_edges. apply Z.mul_div_le. lia. }
      change 1%Q with (inject_Z 1).
      apply (Qfrac_bounds _ _ 0 1); nia.
  - split; [|by vm_compute]. apply (bool_decide_unpack _). vm_compute. exact I.
Qed.

Lemma density_in_unit_interval_witness : (density star_graph <= 1)%Q.
Proof.
  destruct (density_in_unit_interval star_graph) as (_ & H & _).
  apply H; apply (bool_decide_unpack _); vm_compute; exact I.
Defined.

(** ** More on [get_path_subgraph] *)

Lemma update_neighbors_grows G C s path s' :
  update_neighbors G C s path = Ok s' → s ⊆ s'.
Proof.
  revert s. induction path as [|p path IH]; intros s; simpl.
  - by intros [= <-].
  - destruct (neighbors G p) as [nbrs|e]; simpl; [|done].
    intros H%IH. set_solver.
Qed.

Lemma nodes_to_draw_path G path flag C s :
  nodes_to_draw G path flag C = Ok s → ∀ p, p ∈ path → p ∈ s.
Proof.
  unfold nodes_to_draw. destruct flag.
  - intros H%update_neighbors_grows p Hp. apply H. by apply elem_of_list_to_set.
  - intros [= <-] p Hp. by apply elem_of_list_to_set.
Qed.

Lemma contribution_mono G C C' p n :
  0 ≤ C ≤ C' → n ∈ contribution G C p → n ∈ contribution G C' p.
Proof.
  intros HC. unfold contribution, builtins.slice_to.
  destruct (Z.leb_spec 0 C), (Z.leb_spec 0 C'); try lia.
  rewrite !elem_of_take. intros (i & Hi & Hlt). exists i. split; [done|lia].
Qed.

(** X12: with neighbours shown, raising the cap never loses anything: for
    caps [0 <= C <= C'] on a path inside the graph, every node and every
    edge of the subgraph for [C] is in the subgraph for [C']. *)
Theorem cap_monotone G path C C' :
  (∀ p, p ∈ path → p ∈ nodes G) → 0 ≤ C ≤ C' →
  ∃ sub sub',
    get_path_subgraph G path true C = Ok sub ∧
    get_path_subgraph G path true C' = Ok sub' ∧
    (∀ n, n ∈ nodes sub → n ∈ nodes sub') ∧
    (∀ u v, has_edge sub u v → has_edge sub' u v).
Proof.
  intros Hin HC. unfold get_path_subgraph.
  rewrite !(nodes_to_draw_ok _ _ _ _ Hin). simpl. eexists _, _.
  split; [done|]. split; [done|].
  assert (∀ n, n ∈ (list_to_set path ∪
                    ⋃ ((λ p, list_to_set (contribution G C p)) <$> path) : gset Z) →
               n ∈ (list_to_set path ∪
                    ⋃ ((λ p, list_to_set (contribution G C' p)) <$> path) : gset Z))
    as Hsub.
  { intros n. rewrite !elem_of_union, !elem_of_contributions.
    intros [?|(p & Hp & Hn)]; [by left|right].
    exists p. split; [done|]. by eapply contribution_mono. }
  split.
  - intros n. rewrite !subgraph_nodes. naive_solver.
  - intros u v. rewrite !subgraph_has_edge. naive_solver.
Qed.

Lemma cap_monotone_witness :
  ∃ sub sub',
    get_path_subgraph star_graph [1; 5] true 1 = Ok sub ∧
    get_path_subgraph star_graph [1; 5] true 3 = Ok sub' ∧
    (∀ n, n ∈ nodes sub → n ∈ nodes sub') ∧
    (∀ u v, has_edge sub u v → has_edge sub' u v).
Proof.
  apply (cap_monotone star_graph [1; 5] 1 3).
  - intros p Hp. vm_compute. set_solver.
  - lia.
Defined.

Lemma contribution_all G C p l :
  adj G p = Some l → Z.of_nat (length l) ≤ C → contribution G C p = l.
Proof.
  intros Hadj Hlen. unfold contribution, builtins.slice_to. rewrite Hadj. simpl.
  destruct (Z.leb_spec 0 C); [|lia]. apply take_ge. lia.
Qed.

(** X13: a cap that no path node exceeds keeps every neighbour: in a
    well-formed graph, when each node of the path has at most [C]
    neighbours, the nodes of the result are the nodes of the path together
    with all the neighbours of path nodes. *)
Theorem cap_not_reached G path C :
  wf G →
  (∀ p, p ∈ path → ∃ l, adj G p = Some l ∧ Z.of_nat (length l) ≤ C) →
  ∃ sub,
    get_path_subgraph G path true C = Ok sub ∧
    ∀ n, n ∈ nodes sub ↔ n ∈ path ∨ ∃ p, p ∈ path ∧ has_edge G p n.
Proof.
  intros Hwf Hcap.
  assert (∀ p, p ∈ path → p ∈ nodes G) as Hin.
  { intros p (l & Hl & _)%Hcap. apply adj_is_Some. eauto. }
  unfold get_path_subgraph. rewrite (nodes_to_draw_ok _ _ _ _ Hin). simpl.
  eexists. split; [done|]. intros n.
  rewrite subgraph_nodes, elem_of_union, elem_of_list_to_set, elem_of_contributions.
  split.
  - intros [[Hn|(p & Hp & Hn)] _]; [by left|right].
    exists p. split; [done|]. by eapply contribution_neighbors.
  - intros [Hn|(p & Hp & Hpn)].
    + split; [by left|by apply Hin].
    + split.
      * right. exists p. split; [done|].
        destruct (Hcap p Hp) as (l & Hl & Hlen).
        rewrite (contribution_all _ _ _ _ Hl Hlen).
        apply has_edge_spec in Hpn as (l' & Hl' & Hn). congruence.
      * eapply has_node_nodes, has_edge_has_node, wf_has_edge_sym; eauto.
Qed.

Lemma cap_not_reached_witness :
  ∃ sub,
    get_path_subgraph star_graph [5; 9] true 20 = Ok sub ∧
    ∀ n, n ∈ nodes sub ↔ n ∈ [5; 9] ∨ ∃ p, p ∈ [5; 9] ∧ has_edge star_graph p n.
Proof.
  apply (cap_not_reached star_graph [5; 9] 20).
  - apply (bool_decide_unpack _). vm_compute. exact I.
  - intros p Hp.
    assert (p = 5 ∨ p = 9) as [-> | ->] by set_solver;
      eexists; (split; [vm_compute; reflexivity|simpl; lia]).
Defined.

(** X14: on a path inside the graph a cap of zero shows no neighbour: the
    subgraph is the one returned with neighbours not shown, whatever the
    cap given there. *)
Theorem cap_zero_is_path_only G path C :
  (∀ p, p ∈ path → p ∈ nodes G) →
  get_path_subgraph G path true 0 = get_path_subgraph G path false C.
Proof.
  intros Hin.
  assert ((list_to_set path ∪
           ⋃ ((λ p, list_to_set (contribution G 0 p)) <$> path) : gset Z)
          = list_to_set path ∪ ∅) as Hset.
  { apply set_eq. intros n.
    rewrite !elem_of_union, elem_of_contributions. split; [|set_solver].
    intros [?|(p & _ & Hn)]; [by left|].
    unfold contribution, builtins.slice_to in Hn. simpl in Hn.
    by apply not_elem_of_nil in Hn. }
  unfold get_path_subgraph. rewrite !(nodes_to_draw_ok _ _ _ _ Hin).
  by rewrite Hset.
Qed.

Lemma cap_zero_is_path_only_witness :
  get_path_subgraph star_graph [1; 5] true 0 = get_path_subgraph star_graph [1; 5] false 20.
Proof.
  apply (cap_zero_is_path_only star_graph [1; 5] 20).
  intros p Hp. vm_compute. set_solver.
Defined.

(** X15: what [get_path_subgraph] returns on a well-formed graph is a
    well-formed graph inside it: every node of the result is a node of the
    graph, every edge of the result is an edge of the graph, and the
    neighbours of a node in the result are neighbours it has in the
    graph. *)
Theorem path_subgraph_inside G path show_neighbors max_neighbors sub :
  wf G →
  get_path_subgraph G path show_neighbors max_neighbors = Ok sub →
  wf sub ∧
  (∀ n, n ∈ nodes sub → n ∈ nodes G) ∧
  (∀ u v, has_edge sub u v → has_edge G u v) ∧
  (∀ n l, adj sub n = Some l → ∃ l', adj G n = Some l' ∧ ∀ v, v ∈ l → v ∈ l').
Proof.
  intros Hwf. unfold get_path_subgraph.
  destruct (nodes_to_draw G path show_neighbors max_neighbors) as [s|e];
    simpl; [|done].
  intros [= <-]. repeat split; try (by apply wf_subgraph).
  - by intros n [_ ?]%subgraph_nodes.
  - by intros u v [? _]%subgraph_has_edge.
  - intros n l. unfold subgraph. rewrite adj_restrict. case_decide; [|done].
    intros (l' & Hl' & ->)%fmap_Some. exists l'. split; [done|].
    by intros v [_ ?]%list_elem_of_filter.
Qed.

Lemma path_subgraph_inside_witness :
  wf star_path_subgraph ∧
  (∀ n, n ∈ nodes star_path_subgraph → n ∈ nodes star_graph) ∧
  (∀ u v, has_edge star_path_subgraph u v → has_edge star_graph u v) ∧
  (∀ n l, adj star_path_subgraph n = Some l →
          ∃ l', adj star_graph n = Some l' ∧ ∀ v, v ∈ l → v ∈ l').
Proof.
  apply (path_subgraph_inside star_graph [1; 5] true 2).
  - apply (bool_decide_unpack _). vm_compute. exact I.
  - vm_compute. reflexivity.
Defined.

Lemma path_step_listed G path show_neighbors max_neighbors sub a b :
  wf G →
  (∀ a b, consecutive path a b → has_edge G a b) →
  get_path_subgraph G path show_neighbors max_neighbors = Ok sub →
  consecutive path a b →
  has_edge sub a b ∧ ((a, b) ∈ edges sub ∨ (b, a) ∈ edges sub).
Proof.
  intros Hwf Hwalk Hrun Hab. unfold get_path_subgraph in Hrun.
  destruct (nodes_to_draw G path show_neighbors max_neighbors) as [s|e] eqn:Hs;
    simpl in Hrun; [|done].
  injection Hrun as <-. pose proof (nodes_to_draw_path _ _ _ _ _ Hs) as Hp.
  assert (has_edge (subgraph G s) a b) as Hsub.
  { pose proof (Hwalk _ _ Hab) as Hedge. destruct Hab as (i & Ha & Hb).
    apply subgraph_has_edge. repeat split; [done|..].
    - apply Hp. by eapply list_elem_of_lookup_2.
    - apply Hp. by eapply list_elem_of_lookup_2.
    - eapply has_edge_has_node, wf_has_edge_sym; eauto. }
  split; [done|]. apply edges_spec; [by apply wf_subgraph|done].
Qed.

(** X16: the path itself is always drawn, and drawn as the path.  In a
    well-formed graph, for a path whose consecutive nodes are joined by an
    edge, whatever the flag and the cap: each step of the path is an edge
    of the returned subgraph, [edges()] lists it, and the renderer classes
    it as a path edge in whichever orientation it comes. *)
Theorem path_steps_drawn G path show_neighbors max_neighbors sub :
  wf G →
  (∀ a b, consecutive path a b → has_edge G a b) →
  get_path_subgraph G path show_neighbors max_neighbors = Ok sub →
  ∀ a b, consecutive path a b →
    has_edge sub a b ∧
    ((a, b) ∈ edges sub ∨ (b, a) ∈ edges sub) ∧
    on_path path a b = true ∧ on_path path b a = true.
Proof.
  intros Hwf Hwalk Hrun a b Hab.
  destruct (path_step_listed _ _ _ _ _ _ _ Hwf Hwalk Hrun Hab) as [H1 H2].
  repeat split; try done; apply on_path_spec; auto.
Qed.

Lemma path_steps_drawn_witness :
  has_edge star_path_long 5 9 ∧
  ((5, 9) ∈ edges star_path_long ∨ (9, 5) ∈ edges star_path_long) ∧
  on_path [1; 5; 9] 5 9 = true ∧ on_path [1; 5; 9] 9 5 = true.
Proof.
  apply (path_steps_drawn star_graph [1; 5; 9] true 1).
  - apply (bool_decide_unpack _). vm_compute. exact I.
  - intros a b ([|[|[|i]]] & Ha & Hb); simpl in *; simplify_eq; vm_compute; exact I.
  - vm_compute. reflexivity.
  - by exists 1%nat.
Defined.

(** ** The edge view lists every edge once *)

Lemma edges_from_elem seen G a b :
  (a, b) ∈ edges_from seen G → a ∈ nodes G ∧ b ∉ seen.
Proof.
  revert seen. unfold nodes. induction G as [|[n l] G IH]; intros seen; simpl.
  - intros H. by apply not_elem_of_nil in H.
  - rewrite elem_of_app. intros [H|H].
    + apply list_elem_of_fmap in H as (nbr & [= -> ->] & Hnbr).
      apply list_elem_of_filter in Hnbr as [Hnbr _]. split; [left|done].
    + apply IH in H as [Ha Hb]. split; [by right|set_solver].
Qed.

Lemma NoDup_fmap_eq {A B} (f : A → B) (l : list A) x y :
  NoDup (f <$> l) → x ∈ l → y ∈ l → f x = f y → x = y.
Proof.
  induction l as [|z l IH]; [by intros _ H%not_elem_of_nil|].
  rewrite fmap_cons, NoDup_cons, !elem_of_cons.
  intros [Hz Hl] [->|Hx] [->|Hy] Heq; auto.
  - destruct Hz. rewrite Heq. by apply list_elem_of_fmap_2.
  - destruct Hz. rewrite <- Heq. by apply list_elem_of_fmap_2.
Qed.

Lemma NoDup_unordered_edges_from seen G :
  NoDup (nodes G) → (∀ n l, (n, l) ∈ G → NoDup l) →
  NoDup (unordered <$> edges_from seen G).
Proof.
  revert seen. unfold nodes.
  induction G as [|[n l] G IH]; intros seen Hnd Hl; [apply NoDup_nil_2|].
  rewrite fmap_cons in Hnd. apply NoDup_cons in Hnd as [Hn Hnd]. simpl in Hn.
  simpl edges_from. rewrite fmap_app. apply NoDup_app. repeat split.
  - apply NoDup_fmap_2_strong.
    + intros [a b] [c d] (x & [= -> ->] & _)%list_elem_of_fmap
        (y & [= -> ->] & _)%list_elem_of_fmap Heq.
      apply unordered_eq in Heq. f_equal. naive_solver.
    + apply NoDup_fmap_2; [by intros ?? [=]|].
      apply NoDup_filter, (Hl n). left.
  - intros p (e & -> & He)%list_elem_of_fmap (e' & Heq & He')%list_elem_of_fmap.
    apply list_elem_of_fmap in He as (x & -> & _). destruct e' as [c d].
    apply edges_from_elem in He' as [Hc Hd]. apply unordered_eq in Heq.
    destruct Heq as [[-> _]|[-> _]]; [done|]. set_solver.
  - apply IH; [done|]. intros m l' Hin. apply (Hl m). by right.
Qed.

(** X17: in a well-formed graph [edges()] lists no edge twice, in the same
    or in the other orientation, so the renderer draws every edge of the
    subgraph once. *)
Theorem edges_listed_once G :
  wf G →
  NoDup (edges G) ∧
  NoDup (unordered <$> edges G) ∧
  (∀ a b, (a, b) ∈ edges G → (b, a) ∈ edges G → a = b).
Proof.
  intros (Hnd & Hl & _)%wf_alt.
  assert (NoDup (unordered <$> edges G)) as H.
  { apply NoDup_unordered_edges_from; [done|].
    intros n l Hin. apply (Hl n), elem_of_adj; done. }
  repeat split; [by eapply NoDup_fmap_1|done|].
  intros a b Hab Hba.
  assert ((a, b) = (b, a)) as [= ->]; [|done].
  eapply NoDup_fmap_eq; eauto. apply unordered_eq. auto.
Qed.

Lemma edges_listed_once_witness :
  NoDup (edges star_graph) ∧
  NoDup (unordered <$> edges star_graph) ∧
  (∀ a b, (a, b) ∈ edges star_graph → (b, a) ∈ edges star_graph → a = b).
Proof.
  apply (edges_listed_once star_graph).
  apply (bool_decide_unpack _). vm_compute. exact I.
Defined.

(** ** Counting the edges of any well-formed graph *)

Lemma degree_at_cons_ne n l (G : Graph) m :
  n ≠ m → degree_at ((n, l) :: G) m = degree_at G m.
Proof. intros H. unfold degree_at. simpl. by rewrite decide_False. Qed.

Lemma sum_fmap_ext (f g : Z → Z) L : (∀ x, x ∈ L → f x = g x) → sum (f <$> L) = sum (g <$> L).
Proof.
  intros H. f_equal. apply Forall_fmap_ext_1, Forall_forall, H.
Qed.

Lemma degree_sum_nodes G :
  NoDup (nodes G) →
  sum (degree G).*2 = sum ((λ n, default 0 (degree_at G n)) <$> nodes G).
Proof.
  induction G as [|[n l] G IH]; [done|].
  change (nodes ((n, l) :: G)) with (n :: nodes G).
  rewrite NoDup_cons. intros [Hn Hnd].
  rewrite degree_sum_cons, IH, fmap_cons by done.
  change (sum (?x :: ?k)) with (x + sum k).
  rewrite (sum_fmap_ext (λ m, default 0 (degree_at ((n, l) :: G) m))
             (λ m, default 0 (degree_at G m))).
  - f_equal. unfold degree_at. simpl. by rewrite (decide_True (P := n = n)).
  - intros m Hm. rewrite degree_at_cons_ne; [done|]. by intros ->.
Qed.

Lemma degree_at_same G G' n :
  (∀ m l, adj G m = Some l → NoDup l) →
  (∀ m l, adj G' m = Some l → NoDup l) →
  (∀ a b, has_edge G a b ↔ has_edge G' a b) →
  default 0 (degree_at G n) = default 0 (degree_at G' n).
Proof.
  intros Hl Hl' Hsame. unfold degree_at.
  assert (∀ H H' : Graph, (∀ m l, adj H m = Some l → NoDup l) →
            (∀ a b, has_edge H a b → has_edge H' a b) →
            ∀ l, adj H n = Some l → adj H' n = None → l = []) as Hnone.
  { intros H H' _ Hsub l Hadj Hadj'. apply elem_of_nil_inv. intros x Hx.
    assert (has_edge H' n x) as He by (apply Hsub, has_edge_spec; eauto).
    apply has_edge_spec in He as (? & ? & _). congruence. }
  destruct (adj G n) as [l|] eqn:E, (adj G' n) as [l'|] eqn:E'; simpl.
  - assert (∀ x, x ∈ l ↔ x ∈ l') as Hiff.
    { intros x. split; intros Hx.
      + assert (has_edge G' n x) as He by (apply Hsame, has_edge_spec; eauto).
        apply has_edge_spec in He as (? & ? & ?). congruence.
      + assert (has_edge G n x) as He by (apply Hsame, has_edge_spec; eauto).
        apply has_edge_spec in He as (? & ? & ?). congruence. }
    assert (l ≡ₚ l') as Hperm by (apply NoDup_Permutation; eauto).
    rewrite (Permutation_length Hperm).
    destruct (decide (n ∈ l)), (decide (n ∈ l')); try done; naive_solver.
  - by rewrite (Hnone G G' Hl (λ a b, proj1 (Hsame a b)) l E E').
  - by rewrite (Hnone G' G Hl' (λ a b, proj2 (Hsame a b)) l' E' E).
  - done.
Qed.

Lemma sum_fmap_zero (f : Z → Z) k : (∀ x, x ∈ k → f x = 0) → sum (f <$> k) = 0.
Proof.
  unfold sum. induction k as [|x k IH]; intros H; [done|].
  rewrite fmap_cons. simpl. rewrite (H x) by left.
  rewrite IH; [done|]. intros y Hy. apply H. by right.
Qed.

Lemma sum_fmap_sub (f : Z → Z) L L' :
  NoDup L → NoDup L' → (∀ n, n ∈ L' → n ∈ L) →
  (∀ n, n ∈ L → n ∉ L' → f n = 0) →
  sum (f <$> L) = sum (f <$> L').
Proof.
  intros HL HL' Hsub Hzero.
  destruct (submseteq_Permutation L' L) as [k Hk]; [by apply NoDup_submseteq|].
  rewrite (sum_Permutation _ _ (fmap_Permutation f _ _ Hk)), fmap_app, sum_app.
  rewrite (sum_fmap_zero f k); [lia|]. intros x Hx.
  rewrite Hk in HL. apply NoDup_app in HL as (_ & Hdisj & _).
  apply Hzero.
  - rewrite Hk. apply elem_of_app. by right.
  - intros Hx'. by apply (Hdisj x).
Qed.

Lemma degree_at_isolated G n : n ∉ nodes G → default 0 (degree_at G n) = 0.
Proof.
  intros Hn. unfold degree_at. destruct (adj G n) eqn:E; [|done].
  destruct Hn. apply adj_is_Some. eauto.
Qed.

(** Two well-formed graphs with the same edges have the same degree sum. *)
Lemma degree_sum_same G G' :
  wf G → wf G' → (∀ n, n ∈ nodes G' → n ∈ nodes G) →
  (∀ a b, has_edge G a b ↔ has_edge G' a b) →
  sum (degree G).*2 = sum (degree G').*2.
Proof.
  intros (Hnd & Hl & _)%wf_alt (Hnd' & Hl' & _)%wf_alt Hsub Hsame.
  rewrite !degree_sum_nodes by done.
  rewrite (sum_fmap_sub _ (nodes G) (nodes G')); try done.
  - apply sum_fmap_ext. intros n _. by apply degree_at_same.
  - intros n _ Hn. rewrite (degree_at_same G G') by done.
    by apply degree_at_isolated.
Qed.

(** X18: in every well-formed graph, loaded or cut out as a subgraph, the
    number of edges is the number of pairs [edges()] lists, and the degrees
    add up to twice that number. *)
Theorem edge_view_count G :
  wf G →
  number_of_edges G = Z.of_nat (length (edges G)) ∧
  sum (degree G).*2 = 2 * Z.of_nat (length (edges G)).
Proof.
  intros Hwf.
  assert (NoDup (unordered <$> edges G)) as Hnd.
  { pose proof Hwf as (Hnodes & Hl & _)%wf_alt.
    apply NoDup_unordered_edges_from; [done|].
    intros n l Hin. apply (Hl n), elem_of_adj; done. }
  pose proof (add_edges_handshake (edges G)) as [Hedge Hsum]. simpl in *.
  assert (size (distinct_pairs (edges G)) = length (edges G)) as Hsize.
  { unfold distinct_pairs. by rewrite size_list_to_set, length_fmap. }
  assert (sum (degree G).*2 = 2 * Z.of_nat (length (edges G))) as H.
  { rewrite <- Hsize, <- Hsum. apply degree_sum_same; [done| | |].
    - apply wf_add_edges, wf_alt. repeat split; [apply NoDup_nil_2|done|done].
    - intros n. rewrite nodes_add_edges, elem_of_first_seen, elem_of_endpoints.
      intros (u & v & Huv & Hn).
      assert (has_edge G u v) as He by (apply edges_spec; auto).
      destruct Hn as [-> | ->].
      + by eapply has_node_nodes, has_edge_has_node.
      + eapply has_node_nodes, has_edge_has_node, wf_has_edge_sym; eauto.
    - intros a b. by rewrite Hedge, elem_of_distinct_pairs, edges_spec. }
  split; [|done]. unfold number_of_edges.
  rewrite H, (Z.mul_comm 2), Z.div_mul by done. done.
Qed.

Lemma edge_view_count_witness :
  number_of_edges star_path_subgraph = Z.of_nat (length (edges star_path_subgraph)) ∧
  sum (degree star_path_subgraph).*2 = 2 * Z.of_nat (length (edges star_path_subgraph)).
Proof.
  apply (edge_view_count star_path_subgraph).
  apply (bool_decide_unpack _). vm_compute. exact I.
Defined.

(** ** Blanks at the end of a line *)

Lemma is_space_not_comment c : Text.is_space c = true → Ascii.eqb c "#" = false.
Proof.
  intros H. destruct (Ascii.eqb_spec c "#") as [->|]; [|done].
  by vm_compute in H.
Qed.

Lemma strip_comment_snoc s c :
  Text.is_space c = true →
  Text.strip_comment (s ++ String c EmptyString)%string = Text.strip_comment s ∨
  Text.strip_comment (s ++ String c EmptyString)%string
    = (Text.strip_comment s ++ String c EmptyString)%string.
Proof.
  intros Hc. induction s as [|a s IH]; simpl.
  - right. by rewrite (is_space_not_comment _ Hc).
  - destruct (Ascii.eqb a "#"); [by left|].
    destruct IH as [-> | ->]; [by left|by right].
Qed.

Lemma split_from_snoc cur s c :
  Text.is_space c = true →
  Text.split_from cur (s ++ String c EmptyString)%string = Text.split_from cur s.
Proof.
  intros Hc. revert cur. induction s as [|a s IH]; intros cur; simpl.
  - rewrite Hc. by case_decide.
  - destruct (Text.is_space a); [|apply IH]. case_decide; by rewrite IH.
Qed.

(** X19: a blank at the end of a line, such as the newline the file keeps
    there, does not change what the line loads. *)
Theorem trailing_blank_ignored G s c :
  Text.is_space c = true →
  parse_line G (s ++ String c EmptyString)%string = parse_line G s.
Proof.
  intros Hc. unfold parse_line, Text.split.
  destruct (strip_comment_snoc s c Hc) as [-> | ->]; [done|].
  by rewrite split_from_snoc.
Qed.

Lemma trailing_blank_ignored_witness :
  parse_line two_lines_graph ("2 3" ++ String "010" EmptyString)%string
    = parse_line two_lines_graph "2 3"%string.
Proof.
  apply (trailing_blank_ignored two_lines_graph "2 3"%string "010"%char).
  reflexivity.
Defined.

(** ** A whole run of [analyze_graph.py] *)

Lemma load_graph_empty lines : load_graph lines = Ok [] → listed_pairs lines = [].
Proof.
  intros H. apply parse_edgelist_add_edges in H.
  apply (f_equal nodes) in H. rewrite nodes_add_edges in H.
  destruct (listed_pairs lines) as [|[u v] pairs]; [done|].
  assert (u ∈ first_seen (endpoints ((u, v) :: pairs))) as Hu.
  { apply elem_of_first_seen, elem_of_endpoints. exists u, v. split; [left|auto]. }
  rewrite <- H in Hu. by apply not_elem_of_nil in Hu.
Qed.

(** X21: a run ends well exactly when the file is missing or lists at
    least one pair and loads.  In the second case it shows the loading
    notice, the report and the histogram, in this order, and the histogram
    is drawn from the returned degrees, with its two marker lines at the
    reported mean and median and its note naming the reported maximum. *)
Theorem analyze_main_success file outs :
  analyze_graph.main file = (outs, Ok ()) →
  (file = None ∧ outs = [analyze_graph.Loading; analyze_graph.FileNotFound]) ∨
  (∃ lines G report p,
     file = Some lines ∧ load_graph lines = Ok G ∧ G ≠ [] ∧
     outs = [analyze_graph.Loading; analyze_graph.Stats report; analyze_graph.Shown p] ∧
     Plot.data p = (degree G).*2 ∧
     Plot.mean_line p = Report.avg_degree report ∧
     Plot.median_line p = Report.median_degree report ∧
     Plot.noted_max p = Report.max_degree report ∧
     Plot.bins p = 40 ∧ Plot.range p = (0, 200)).
Proof.
  destruct file as [lines|]; simpl.
  - destruct (load_graph lines) as [G|e'] eqn:Hload; [|done].
    destruct (decide (G = [])) as [->|HG]; [done|].
    destruct (stats_ok G HG) as (avg & med & mx & _ & _ & Hmx & ->).
    unfold plot_degree_distribution. rewrite Hmx. simpl.
    intros [= <-]. right. by eexists lines, G, _, _.
  - intros [= <-]. by left.
Qed.

Lemma analyze_main_success_witness :
  (Some chain = None ∧
   [analyze_graph.Loading;
    analyze_graph.Stats (Report.make 4 3 (1 # 2) (3 # 2) (3 # 2) 2);
    analyze_graph.Shown (Plot.make [1; 2; 2; 1] 40 (0, 200) (3 # 2) (3 # 2) (150, 100) 2)]
   = [analyze_graph.Loading; analyze_graph.FileNotFound]) ∨
  (∃ lines G report p,
     Some chain = Some lines ∧ load_graph lines = Ok G ∧ G ≠ [] ∧
     [analyze_graph.Loading;
      analyze_graph.Stats (Report.make 4 3 (1 # 2) (3 # 2) (3 # 2) 2);
      analyze_graph.Shown (Plot.make [1; 2; 2; 1] 40 (0, 200) (3 # 2) (3 # 2) (150, 100) 2)]
     = [analyze_graph.Loading; analyze_graph.Stats report; analyze_graph.Shown p] ∧
     Plot.data p = (degree G).*2 ∧
     Plot.mean_line p = Report.avg_degree report ∧
     Plot.median_line p = Report.median_degree report ∧
     Plot.noted_max p = Report.max_degree report ∧
     Plot.bins p = 40 ∧ Plot.range p = (0, 200)).
Proof.
  apply (analyze_main_success (Some chain)). vm_compute. reflexivity.
Defined.

(** ** Labels read back as node identifiers *)








(** ** The median splits the degrees in two halves *)

Lemma filter_all {A} (P : A → Prop) `{∀ x, Decision (P x)} (l : list A) :
  Forall P l → filter P l = l.
Proof.
  induction 1 as [|x l Hx _ IH]; [done|]. by rewrite filter_cons_True, IH.
Qed.

Lemma filter_prefix (P : Z → Prop) `{∀ x, Decision (P x)} (s : list Z) k :
  (k ≤ length s)%nat →
  (∀ j d, s !! j = Some d → (j < k)%nat → P d) →
  (k ≤ length (filter P s))%nat.
Proof.
  intros Hk HP. rewrite <- (take_drop k s), filter_app, length_app.
  rewrite (filter_all P (take k s)).
  - rewrite length_take. lia.
  - apply Forall_forall. intros d (j & Hj & Hlt)%elem_of_take. eauto.
Qed.

Lemma filter_suffix (P : Z → Prop) `{∀ x, Decision (P x)} (s : list Z) k :
  (∀ j d, s !! j = Some d → (k ≤ j)%nat → P d) →
  (length s - k ≤ length (filter P s))%nat.
Proof.
  intros HP. rewrite <- (take_drop k s) at 2. rewrite filter_app, length_app.
  rewrite (filter_all P (drop k s)).
  - rewrite length_drop. lia.
  - apply Forall_forall. intros d (j & Hj)%list_elem_of_lookup.
    rewrite lookup_drop in Hj. eapply HP; [done|lia].
Qed.

Lemma sorted_lookup_le s a b x y :
  StronglySorted Z.le s → s !! a = Some x → s !! b = Some y → (a ≤ b)%nat → x ≤ y.
Proof.
  intros Hs. revert a b. induction Hs as [|z s _ IH Hz]; intros a b; [done|].
  destruct a as [|a], b as [|b]; simpl; try lia.
  - intros [= <-] [= <-] _. lia.
  - intros [= <-] Hy _. rewrite Forall_forall in Hz.
    by eapply Hz, list_elem_of_lookup_2.
  - intros Hx Hy Hab. eapply IH; eauto. lia.
Qed.

(** X23: the median the statistics step reports is a median in the usual
    sense: at least half of the degrees are at most it, and at least half
    of them are at least it. *)
Theorem median_splits data med :
  statistics.median data = Ok med →
  (length data ≤ 2 * length (filter (λ d, Qle_bool (inject_Z d) med) data))%nat ∧
  (length data ≤ 2 * length (filter (λ d, Qle_bool med (inject_Z d)) data))%nat.
Proof.
  unfold statistics.median. cbv zeta.
  pose proof (sorted_spec data) as [Hsorted Hperm].
  rewrite <- !(Permutation_length (filter_Permutation _ _ _ Hperm)).
  rewrite <- (Permutation_length Hperm).
  set (s := statistics.sorted data) in *. set (n := length s).
  assert (n ≠ 0%nat → n / 2 < n)%nat as Hi by (intros ?; apply Nat.div_lt; lia).
  pose proof (Nat.div_mod_eq n 2) as Hdm.
  set (i := (n / 2)%nat) in *.
  case_decide as H0; [done|]. specialize (Hi H0).
  assert (∀ j, (j < n)%nat → s !! j = Some (nth j s 0)) as Hnth.
  { intros j Hj. destruct (lookup_lt_is_Some_2 s j Hj) as [d Hd].
    by rewrite (nth_lookup_Some _ _ _ _ Hd). }
  case_decide as Hodd; intros [= <-].
  - split.
    + etrans; [|apply Nat.mul_le_mono_l, (filter_prefix _ s (S i)); [lia|]]; [lia|].
      intros j d Hj Hlt. apply Is_true_true, Qle_bool_iff. rewrite <- Zle_Qle.
      eapply (sorted_lookup_le s j i); eauto. lia.
    + etrans; [|apply Nat.mul_le_mono_l, (filter_suffix _ s i)]; [fold n; lia|].
      intros j d Hj Hle. apply Is_true_true, Qle_bool_iff. rewrite <- Zle_Qle.
      eapply (sorted_lookup_le s i j); eauto.
  - assert (n mod 2 = 0)%nat as Heven.
    { pose proof (Nat.mod_upper_bound n 2). lia. }
    assert (nth (i - 1) s 0 ≤ nth i s 0) as Hmid.
    { eapply (sorted_lookup_le s (i - 1) i); eauto; (apply Hnth || idtac); lia. }
    split.
    + etrans; [|apply Nat.mul_le_mono_l, (filter_prefix _ s i); [lia|]]; [lia|].
      intros j d Hj Hlt. apply Is_true_true, Qle_bool_iff.
      rewrite Qred_correct. change 2%Q with (inject_Z 2).
      assert (d ≤ nth (i - 1) s 0).
      { eapply (sorted_lookup_le s j (i - 1)); eauto; [apply Hnth|]; lia. }
      apply (Qfrac_bounds _ 2 d (nth i s 0)); lia.
    + etrans; [|apply Nat.mul_le_mono_l, (filter_suffix _ s i)]; [fold n; lia|].
      intros j d Hj Hle. apply Is_true_true, Qle_bool_iff.
      rewrite Qred_correct. change 2%Q with (inject_Z 2).
      assert (nth i s 0 ≤ d).
      { eapply (sorted_lookup_le s i j); eauto. }
      apply (Qfrac_bounds _ 2 (nth (i - 1) s 0) d); lia.
Qed.

Lemma median_splits_witness :
  (length (degree chain_graph).*2
   ≤ 2 * length (filter (λ d, Qle_bool (inject_Z d) (3 # 2)) (degree chain_graph).*2))%nat ∧
  (length (degree chain_graph).*2
   ≤ 2 * length (filter (λ d, Qle_bool (3 # 2) (inject_Z d)) (degree chain_graph).*2))%nat.
Proof.
  apply (median_splits (degree chain_graph).*2 (3 # 2)). vm_compute. reflexivity.
Defined.

(** ** How much of the drawing is highlighted *)

Lemma count_red_nodes (path : list Z) (l : list Z) :
  length (filter (λ c, c = "red"%string)
            (map (λ n, (if decide (n ∈ path)
                        then ("red"%string, 300) else ("lightgray"%string, 50)).1) l))
    = length (filter (λ n, n ∈ path) l) ∧
  length (filter (λ z, z = 300)
            (map (λ n, (if decide (n ∈ path)
                        then ("red"%string, 300) else ("lightgray"%string, 50)).2) l))
    = length (filter (λ n, n ∈ path) l).
Proof.
  induction l as [|n l [IH1 IH2]]; [done|].
  rewrite !map_cons, !filter_cons.
  destruct (decide (n ∈ path)); simpl; rewrite ?decide_True, ?decide_False by done;
    simpl; auto.
Qed.

(** X24: the drawing highlights the path nodes and no others.  For a path
    inside a well-formed graph, whatever the flag and the cap, the colour
    and size lists have one entry per node of the subgraph, and the entries
    that are red, and those of size 300, number as many as the path has
    distinct nodes. *)
Theorem highlighted_nodes G path show_neighbors max_neighbors sub :
  wf G → (∀ p, p ∈ path → p ∈ nodes G) →
  get_path_subgraph G path show_neighbors max_neighbors = Ok sub →
  let d := draw_network sub path in
  length (Drawing.node_colors d) = length (nodes sub) ∧
  length (Drawing.node_sizes d) = length (nodes sub) ∧
  length (filter (λ c, c = "red"%string) (Drawing.node_colors d))
    = size (list_to_set path : gset Z) ∧
  length (filter (λ z, z = 300) (Drawing.node_sizes d))
    = size (list_to_set path : gset Z).
Proof.
  intros Hwf Hin Hrun. simpl.
  destruct (count_red_nodes path (nodes sub)) as [-> ->].
  rewrite !length_map. split; [done|]. split; [done|].
  assert (length (filter (λ n, n ∈ path) (nodes sub)) = size (list_to_set path : gset Z))
    as ->; [|done].
  unfold get_path_subgraph in Hrun.
  destruct (nodes_to_draw G path show_neighbors max_neighbors) as [s|e] eqn:Hs;
    simpl in Hrun; [|done].
  injection Hrun as <-. pose proof (nodes_to_draw_path _ _ _ _ _ Hs) as Hp.
  rewrite <- (size_list_to_set (C := gset Z)).
  - f_equal. apply set_eq. intros n.
    rewrite !elem_of_list_to_set, list_elem_of_filter, subgraph_nodes. naive_solver.
  - apply NoDup_filter. rewrite nodes_subgraph_filter. apply NoDup_filter.
    by apply wf_alt in Hwf as [? _].
Qed.

Lemma highlighted_nodes_witness :
  length (Drawing.node_colors (draw_network star_path_subgraph [1; 5]))
    = length (nodes star_path_subgraph) ∧
  length (Drawing.node_sizes (draw_network star_path_subgraph [1; 5]))
    = length (nodes star_path_subgraph) ∧
  length (filter (λ c, c = "red"%string)
            (Drawing.node_colors (draw_network star_path_subgraph [1; 5])))
    = size (list_to_set [1; 5] : gset Z) ∧
  length (filter (λ z, z = 300)
            (Drawing.node_sizes (draw_network star_path_subgraph [1; 5])))
    = size (list_to_set [1; 5] : gset Z).
Proof.
  apply (highlighted_nodes star_graph [1; 5] true 2).
  - apply (bool_decide_unpack _). vm_compute. exact I.
  - intros p Hp. vm_compute. set_solver.
  - vm_compute. reflexivity.
Defined.

Lemma count_red_edges (path : list Z) (l : list (Z * Z)) :
  length (filter (λ c, c = "red"%string)
            (map (λ e : Z * Z, (if on_path path e.1 e.2
                                then ("red"%string, 2%Q) else ("#e0e0e0"%string, (1 # 2)%Q)).1) l))
    = length (filter (λ e : Z * Z, on_path path e.1 e.2) l).
Proof.
  induction l as [|e l IH]; [done|].
  rewrite !map_cons, !filter_cons.
  destruct (on_path path e.1 e.2) eqn:E; simpl;
    repeat case_decide; simplify_eq; simpl; auto.
Qed.

Lemma NoDup_fmap_filter {A B} (f : A → B) (P : A → Prop) `{∀ x, Decision (P x)} l :
  NoDup (f <$> l) → NoDup (f <$> filter P l).
Proof.
  induction l as [|x l IH]; [done|].
  rewrite fmap_cons, NoDup_cons, filter_cons. intros [Hx Hl].
  destruct (decide (P x)); [|by apply IH].
  rewrite fmap_cons. apply NoDup_cons. split; [|by apply IH].
  intros (y & Hy & Hin)%list_elem_of_fmap. apply Hx.
  apply list_elem_of_fmap. exists y. split; [done|].
  by apply list_elem_of_filter in Hin as [_ ?].
Qed.

(** X25: the drawing highlights the steps of the path and no other edge.
    In a well-formed graph, for a path whose consecutive nodes are joined
    by an edge, whatever the flag and the cap, the colour list has one entry
    per listed edge, and its red entries number as many as the path has
    distinct steps, a step walked in both directions counting once. *)
Theorem highlighted_edges G path show_neighbors max_neighbors sub :
  wf G →
  (∀ a b, consecutive path a b → has_edge G a b) →
  get_path_subgraph G path show_neighbors max_neighbors = Ok sub →
  let d := draw_network sub path in
  length (Drawing.edge_colors d) = length (edges sub) ∧
  length (Drawing.edge_widths d) = length (edges sub) ∧
  length (filter (λ c, c = "red"%string) (Drawing.edge_colors d))
    = size (list_to_set (unordered <$> path_edges path) : gset (Z * Z)).
Proof.
  intros Hwf Hwalk Hrun. simpl. rewrite !length_map.
  split; [done|]. split; [done|]. rewrite count_red_edges.
  assert (wf sub) as Hwfsub.
  { unfold get_path_subgraph in Hrun.
    destruct (nodes_to_draw G path show_neighbors max_neighbors); simpl in Hrun; [|done].
    injection Hrun as <-. by apply wf_subgraph. }
  assert (NoDup (unordered <$> edges sub)) as Hnd.
  { pose proof Hwfsub as (Hnodes & Hl & _)%wf_alt.
    apply NoDup_unordered_edges_from; [done|].
    intros n l Hin. apply (Hl n), elem_of_adj; done. }
  rewrite <- (length_fmap unordered).
  rewrite <- (size_list_to_set (C := gset (Z * Z))) by by apply NoDup_fmap_filter.
  f_equal. apply set_eq. intros p.
  rewrite !elem_of_list_to_set, !list_elem_of_fmap. split.
  - intros ([a b] & -> & [Hon Hin]%list_elem_of_filter). simpl in Hon.
    apply Is_true_true, on_path_spec in Hon as [Hc|Hc].
    + exists (a, b). split; [done|]. by apply elem_of_path_edges.
    + exists (b, a). split; [by apply unordered_eq; auto|].
      by apply elem_of_path_edges.
  - intros ([a b] & -> & Hc%elem_of_path_edges).
    destruct (path_step_listed _ _ _ _ _ _ _ Hwf Hwalk Hrun Hc) as [_ [Hin|Hin]].
    + exists (a, b). split; [done|]. apply list_elem_of_filter. split; [|done].
      simpl. apply Is_true_true, on_path_spec. auto.
    + exists (b, a). split; [by apply unordered_eq; auto|].
      apply list_elem_of_filter. split; [|done].
      simpl. apply Is_true_true, on_path_spec. auto.
Qed.

Lemma highlighted_edges_witness :
  length (Drawing.edge_colors (draw_network star_path_long [1; 5; 9]))
    = length (edges star_path_long) ∧
  length (Drawing.edge_widths (draw_network star_path_long [1; 5; 9]))
    = length (edges star_path_long) ∧
  length (filter (λ c, c = "red"%string)
            (Drawing.edge_colors (draw_network star_path_long [1; 5; 9])))
    = size (list_to_set (unordered <$> path_edges [1; 5; 9]) : gset (Z * Z)).
Proof.
  apply (highlighted_edges star_graph [1; 5; 9] true 1).
  - apply (bool_decide_unpack _). vm_compute. exact I.
  - intros a b ([|[|[|i]]] & Ha & Hb); simpl in *; simplify_eq; vm_compute; exact I.
  - vm_compute. reflexivity.
Defined.

(** ** Powers of two and rounding to an integer *)

Lemma pow2_pos e : (0 < 2 ^ e)%Q.
Proof. by apply Qpower_0_lt. Qed.

Lemma pow2_add a b : (2 ^ (a + b) == 2 ^ a * 2 ^ b)%Q.
Proof. by apply Qpower_plus. Qed.

Lemma pow2_le a b : a ≤ b → (2 ^ a <= 2 ^ b)%Q.
Proof. intros H. apply Qpower_le_compat_l; [done|]. by unfold Qle. Qed.

Lemma pow2_Z k : 0 ≤ k → (inject_Z (2 ^ k) == 2 ^ k)%Q.
Proof. intros H. by rewrite Zpower_Qpower. Qed.

Lemma pow2_succ a : (2 ^ (a + 1) == 2 * 2 ^ a)%Q.
Proof. rewrite pow2_add. change (2 ^ 1)%Q with 2%Q. ring. Qed.

Lemma pow2_pred a : (2 ^ (a - 1) == 2 ^ a * (1 # 2))%Q.
Proof.
  replace a with ((a - 1) + 1) at 2 by lia. rewrite pow2_succ. field.
Qed.

Lemma floor_log2_spec q :
  (0 < q)%Q →
  (2 ^ float.floor_log2 q <= q)%Q ∧ (q < 2 ^ (float.floor_log2 q + 1))%Q.
Proof.
  intros Hq. unfold float.floor_log2.
  destruct q as [a b]. simpl Qnum. simpl Qden.
  assert (0 < a) as Ha by (unfold Qlt in Hq; simpl in Hq; lia).
  set (la := Z.log2 a). set (lb := Z.log2 (Z.pos b)).
  destruct (Z.log2_spec a Ha) as [Ha1 Ha2].
  destruct (Z.log2_spec (Z.pos b) ltac:(lia)) as [Hb1 Hb2].
  fold la in Ha1, Ha2. fold lb in Hb1, Hb2.
  assert (0 ≤ la) as Hla by apply Z.log2_nonneg.
  assert (0 ≤ lb) as Hlb by apply Z.log2_nonneg.
  pose proof (pow2_pos (la - lb)) as HD.
  assert (2 ^ (la - lb) * 2 ^ lb == 2 ^ la)%Q as HDB.
  { rewrite <- pow2_add. by replace (la - lb + lb) with la by lia. }
  assert (2 ^ la <= inject_Z a)%Q as Hx1.
  { rewrite <- pow2_Z by done. by rewrite <- Zle_Qle. }
  assert (inject_Z a < 2 * 2 ^ la)%Q as Hx2.
  { rewrite <- pow2_succ, <- pow2_Z by lia. rewrite <- Zlt_Qlt.
    by replace (la + 1) with (Z.succ la) by lia. }
  assert (2 ^ lb <= inject_Z (Z.pos b))%Q as Hy1.
  { rewrite <- pow2_Z by done. by rewrite <- Zle_Qle. }
  assert (inject_Z (Z.pos b) < 2 * 2 ^ lb)%Q as Hy2.
  { rewrite <- pow2_succ, <- pow2_Z by lia. rewrite <- Zlt_Qlt.
    by replace (lb + 1) with (Z.succ lb) by lia. }
  pose proof (pow2_pos lb) as HB. pose proof (pow2_pos la) as HA.
  assert ((a # b) * inject_Z (Z.pos b) == inject_Z a)%Q as Hq'.
  { rewrite (Qmake_Qdiv a b). field. intros H. unfold Qeq in H. simpl in H. lia. }
  set (q := (a # b)%Q) in *. set (x := inject_Z a) in *.
  set (y := inject_Z (Z.pos b)) in *.
  set (D := (2 ^ (la - lb))%Q) in *. set (B := (2 ^ lb)%Q) in *.
  set (A := (2 ^ la)%Q) in *.
  assert (0 < y)%Q as Hy0 by lra.
  assert (D * B <= D * y)%Q as H1 by (apply Qmult_le_l; done).
  assert (D * y < D * (2 * B))%Q as H2 by (apply Qmult_lt_l; done).
  assert (q < 2 * D)%Q as Hup.
  { apply (Qmult_lt_r _ _ y Hy0). rewrite Hq'.
    setoid_replace (2 * D * y)%Q with (2 * (D * y))%Q using relation Qeq by ring. lra. }
  assert (D < 2 * q)%Q as Hlow.
  { apply (Qmult_lt_r _ _ y Hy0).
    setoid_replace (2 * q * y)%Q with (2 * (q * y))%Q using relation Qeq by ring. rewrite Hq'.
    setoid_replace (D * (2 * B))%Q with (2 * (D * B))%Q using relation Qeq in H2 by ring. lra. }
  destruct (Qle_bool D q) eqn:E.
  - apply Qle_bool_iff in E. split; [done|]. by rewrite pow2_succ.
  - assert (q < D)%Q as Hlt.
    { apply Qnot_le_lt. intros H. apply Qle_bool_iff in H. congruence. }
    rewrite pow2_pred. replace (la - lb - 1 + 1) with (la - lb) by lia.
    fold D. split; [|done].
    lra.
Qed.

Lemma rhe_floor x :
  let m := Qfloor x in
  (inject_Z m <= x)%Q ∧ (x < inject_Z m + 1)%Q ∧
  (float.round_half_even x = m ∨ float.round_half_even x = m + 1) ∧
  (inject_Z (float.round_half_even x) - x <= 1 # 2)%Q ∧
  (x - inject_Z (float.round_half_even x) <= 1 # 2)%Q.
Proof.
  simpl. unfold float.round_half_even. set (m := Qfloor x).
  pose proof (Qfloor_le x) as H1. pose proof (Qlt_floor x) as H2.
  fold m in H1, H2. rewrite inject_Z_plus in H2.
  change (inject_Z 1) with 1%Q in H2.
  split; [done|]. split; [done|].
  destruct (x - inject_Z m ?= 1 # 2)%Q eqn:E.
  - apply Qeq_alt in E. destruct (Z.even m).
    + split; [by left|]. split; lra.
    + split; [by right|]. rewrite inject_Z_plus. change (inject_Z 1) with 1%Q.
      split; lra.
  - apply Qlt_alt in E. split; [by left|]. split; lra.
  - apply Qgt_alt in E. split; [by right|]. rewrite inject_Z_plus.
    change (inject_Z 1) with 1%Q. split; lra.
Qed.

Lemma rhe_best x j :
  (Qabs (inject_Z (float.round_half_even x) - x) <= Qabs (inject_Z j - x))%Q.
Proof.
  destruct (rhe_floor x) as (_ & _ & _ & H1 & H2).
  set (m := float.round_half_even x) in *.
  destruct (decide (j = m)) as [->|Hj]; [apply Qle_refl|].
  assert (j ≤ m + - 1 ∨ m + 1 ≤ j) as [H|H] by lia.
  - rewrite Zle_Qle in H. rewrite inject_Z_plus in H. change (inject_Z (-1)) with (-1 # 1)%Q in H.
    qabs; lra.
  - rewrite Zle_Qle in H. rewrite inject_Z_plus in H. change (inject_Z 1) with 1%Q in H.
    qabs; lra.
Qed.

Lemma rhe_bounds x lo hi :
  (inject_Z lo <= x)%Q → (x < inject_Z hi)%Q →
  lo ≤ float.round_half_even x ≤ hi.
Proof.
  intros Hlo Hhi. destruct (rhe_floor x) as (H1 & H2 & Hm & _).
  assert (lo ≤ Qfloor x).
  { rewrite <- (Qfloor_Z lo). by apply Qfloor_resp_le. }
  assert (Qfloor x < hi).
  { rewrite Zlt_Qlt. lra. }
  lia.
Qed.

Lemma pow2_52 : (2 ^ 52 == c52)%Q.
Proof. reflexivity. Qed.

Lemma pow2_53 : (2 ^ 53 == c53)%Q.
Proof. reflexivity. Qed.

Section nearest.
Context (q : Q) (Hq : (0 < q)%Q).

Lemma nearest_value :
  (float.nearest q == inject_Z (float.significand q) * 2 ^ float.quantum q)%Q.
Proof. unfold float.nearest. by rewrite Qred_correct. Qed.

Lemma quantum_pos : (0 < 2 ^ float.quantum q)%Q.
Proof. apply pow2_pos. Qed.

Lemma scaled_spec : (q == float.scaled q * 2 ^ float.quantum q)%Q.
Proof.
  pose proof quantum_pos. unfold float.scaled. field. lra.
Qed.

Lemma quantum_cases :
  (float.quantum q = float.floor_log2 q - 52 ∧ -1074 ≤ float.quantum q) ∨
  (float.quantum q = -1074 ∧ float.floor_log2 q - 52 ≤ -1074).
Proof. unfold float.quantum. lia. Qed.

Lemma scaled_lt : (float.scaled q < c53)%Q.
Proof.
  pose proof quantum_pos as Hs.
  destruct (floor_log2_spec q Hq) as [_ Hup].
  assert (2 ^ (float.floor_log2 q + 1) <= c53 * 2 ^ float.quantum q)%Q as H.
  { rewrite <- pow2_53. rewrite <- pow2_add. apply pow2_le.
    destruct quantum_cases; lia. }
  apply (Qmult_lt_r _ _ _ Hs). rewrite <- scaled_spec. lra.
Qed.

Lemma scaled_pos : (0 < float.scaled q)%Q.
Proof.
  pose proof quantum_pos as Hs. apply (Qmult_lt_r _ _ _ Hs).
  rewrite <- scaled_spec. lra.
Qed.

(** In the normal range the scaled value has its 53 bits. *)
Lemma scaled_ge : -1074 < float.quantum q → (c52 <= float.scaled q)%Q.
Proof.
  intros He. pose proof quantum_pos as Hs.
  destruct (floor_log2_spec q Hq) as [Hlow _].
  assert (float.quantum q = float.floor_log2 q - 52) as HeL
    by (destruct quantum_cases; lia).
  assert (c52 * 2 ^ float.quantum q == 2 ^ float.floor_log2 q)%Q as H.
  { rewrite <- pow2_52. rewrite <- pow2_add.
    by replace (52 + float.quantum q) with (float.floor_log2 q) by lia. }
  apply (Qmult_le_r _ _ _ Hs). rewrite <- scaled_spec. lra.
Qed.

Lemma significand_bounds : 0 ≤ float.significand q ≤ 2 ^ 53.
Proof.
  apply rhe_bounds.
  - pose proof scaled_pos. change (inject_Z 0) with 0%Q. lra.
  - pose proof scaled_lt. by change (inject_Z (2 ^ 53)) with c53.
Qed.

Lemma significand_ge : -1074 < float.quantum q → 2 ^ 52 ≤ float.significand q.
Proof.
  intros He. pose proof scaled_lt.
  apply (rhe_bounds (float.scaled q) (2 ^ 52) (2 ^ 53)).
  - change (inject_Z (2 ^ 52)) with c52. by apply scaled_ge.
  - by change (inject_Z (2 ^ 53)) with c53.
Qed.

Lemma nearest_nonneg : (0 <= float.nearest q)%Q.
Proof.
  rewrite nearest_value. pose proof quantum_pos. pose proof significand_bounds as [Hm _].
  rewrite Zle_Qle in Hm. change (inject_Z 0) with 0%Q in Hm.
  apply Qmult_le_0_compat; lra.
Qed.

Lemma nearest_minus :
  (float.nearest q - q
   == (inject_Z (float.significand q) - float.scaled q) * 2 ^ float.quantum q)%Q.
Proof.
  pose proof nearest_value as Hv. pose proof scaled_spec as Hs.
  revert Hv Hs.
  generalize (float.nearest q) (inject_Z (float.significand q))
             (float.scaled q) (2 ^ float.quantum q)%Q.
  intros; lra.
Qed.

(** The rounded value is within half a unit of the last bit. *)
Lemma nearest_error : (Qabs (float.nearest q - q) <= 2 ^ float.quantum q * (1 # 2))%Q.
Proof.
  pose proof quantum_pos as Hs.
  rewrite nearest_minus, Qabs_Qmult, (Qabs_pos (2 ^ float.quantum q)) by lra.
  rewrite (Qmult_comm (2 ^ float.quantum q)). apply Qmult_le_r; [done|].
  destruct (rhe_floor (float.scaled q)) as (_ & _ & _ & Hup & Hdn).
  unfold float.significand. qabs; lra.
Qed.

Lemma quantum_le : (2 ^ float.quantum q <= q + 1)%Q.
Proof.
  destruct quantum_cases as [[He _]|[He _]].
  - destruct (floor_log2_spec q Hq) as [Hlow _].
    assert (2 ^ float.quantum q <= 2 ^ float.floor_log2 q)%Q by (apply pow2_le; lia).
    lra.
  - rewrite He. assert (2 ^ (-1074) <= 2 ^ 0)%Q by by apply pow2_le.
    change (2 ^ 0)%Q with 1%Q in *. lra.
Qed.

Lemma nearest_le : (float.nearest q <= q + (q + 1) * (1 # 2))%Q.
Proof.
  pose proof nearest_error as H. pose proof quantum_le.
  revert H. qabs; intros; lra.
Qed.

(** Below [2 ^ 1024] the rounded value is a float. *)
Lemma nearest_is_double : (float.nearest q < 2 ^ 1024)%Q → is_double (float.nearest q).
Proof.
  intros Hfin. pose proof significand_bounds as Hm. pose proof quantum_pos as Hs.
  assert (-1074 ≤ float.quantum q) as Hemin by (unfold float.quantum; lia).
  rewrite nearest_value in Hfin.
  destruct (decide (float.significand q = 2 ^ 53)) as [Hmax|Hmax].
  - exists (2 ^ 52), (float.quantum q + 1). split; [done|]. split.
    + split; [lia|].
      destruct (decide (float.quantum q + 1 ≤ 971)) as [?|Hbig]; [done|exfalso].
      assert (2 ^ 1024 <= 2 ^ (53 + float.quantum q))%Q as H by (apply pow2_le; lia).
      rewrite pow2_add, pow2_53 in H. rewrite Hmax in Hfin.
      change (inject_Z (2 ^ 53)) with c53 in Hfin. lra.
    + rewrite nearest_value, Hmax, pow2_succ.
      change (inject_Z (2 ^ 53)) with c53. change (inject_Z (2 ^ 52)) with c52.
      unfold c52, c53. ring.
  - exists (float.significand q), (float.quantum q).
    split; [lia|]. split; [|apply nearest_value].
    split; [done|].
    destruct (decide (float.quantum q ≤ 971)) as [?|Hbig]; [done|exfalso].
    pose proof (significand_ge ltac:(lia)) as Hm52.
    assert (2 ^ 1024 <= 2 ^ (52 + float.quantum q))%Q as H by (apply pow2_le; lia).
    rewrite pow2_add, pow2_52 in H.
    rewrite Zle_Qle in Hm52. change (inject_Z (2 ^ 52)) with c52 in Hm52.
    assert (c52 * 2 ^ float.quantum q
            <= inject_Z (float.significand q) * 2 ^ float.quantum q)%Q
      by (apply Qmult_le_r; done).
    lra.
Qed.

(** No float is nearer to [q] than the rounded value: a float with a
    coarser last bit is a whole number of units, and one with a finer last
    bit lies below the binade of [q]. *)
Lemma nearest_closest d : is_double d → (Qabs (float.nearest q - q) <= Qabs (d - q))%Q.
Proof.
  intros (k & f & Hk & Hf & Hd). pose proof quantum_pos as Hs.
  rewrite nearest_minus, Qabs_Qmult, (Qabs_pos (2 ^ float.quantum q)) by lra.
  destruct (decide (float.quantum q ≤ f)) as [Hef|Hef].
  - assert (d - q == (inject_Z (k * 2 ^ (f - float.quantum q)) - float.scaled q)
                     * 2 ^ float.quantum q)%Q as Hdq.
    { rewrite inject_Z_mult, pow2_Z by lia.
      assert (2 ^ f == 2 ^ (f - float.quantum q) * 2 ^ float.quantum q)%Q as Hf'.
      { rewrite <- pow2_add. by replace (f - float.quantum q + float.quantum q) with f by lia. }
      pose proof scaled_spec as Hq'. revert Hd Hf' Hq'.
      generalize (inject_Z k) (2 ^ f)%Q (2 ^ (f - float.quantum q))%Q
                 (float.scaled q) (2 ^ float.quantum q)%Q.
      intros a F P X S Hd HF HX. rewrite Hd, HF, HX at 1. ring. }
    rewrite Hdq, Qabs_Qmult, (Qabs_pos (2 ^ float.quantum q)) by lra.
    apply Qmult_le_r; [done|]. apply rhe_best.
  - assert (-1074 < float.quantum q) as He by lia.
    pose proof (scaled_ge He) as Hx.
    pose proof (rhe_best (float.scaled q) (2 ^ 52)) as Hbest.
    change (inject_Z (2 ^ 52)) with c52 in Hbest.
    fold (float.significand q) in Hbest.
    set (t := (inject_Z k * 2 ^ (f - float.quantum q))%Q).
    assert (d - q == (t - float.scaled q) * 2 ^ float.quantum q)%Q as Hdq.
    { assert (2 ^ f == 2 ^ (f - float.quantum q) * 2 ^ float.quantum q)%Q as Hf'.
      { rewrite <- pow2_add. by replace (f - float.quantum q + float.quantum q) with f by lia. }
      pose proof scaled_spec as Hq'. unfold t. revert Hd Hf' Hq'.
      generalize (inject_Z k) (2 ^ f)%Q (2 ^ (f - float.quantum q))%Q
                 (float.scaled q) (2 ^ float.quantum q)%Q.
      intros a F P X S Hd HF HX. rewrite Hd, HF, HX at 1. ring. }
    rewrite Hdq, Qabs_Qmult, (Qabs_pos (2 ^ float.quantum q)) by lra.
    apply Qmult_le_r; [done|].
    assert (t < c52)%Q as Ht.
    { unfold t. pose proof (pow2_pos (f - float.quantum q)) as Hp.
      assert (2 ^ (f - float.quantum q) <= 2 ^ (-1))%Q as Hhalf by (apply pow2_le; lia).
      change (2 ^ (-1))%Q with (1 # 2)%Q in Hhalf.
      set (p := (2 ^ (f - float.quantum q))%Q) in *.
      assert (k ≤ 2 ^ 53 - 1) as Hk' by lia. rewrite Zle_Qle in Hk'.
      change (inject_Z (2 ^ 53 - 1)) with (c53 - 1)%Q in Hk'.
      destruct (Qlt_le_dec (inject_Z k) 0) as [Hneg|Hpos].
      - assert (inject_Z k * p <= 0 * p)%Q by (apply Qmult_le_r; [done|lra]).
        unfold c52. lra.
      - assert (inject_Z k * p <= inject_Z k * (1 # 2))%Q.
        { rewrite !(Qmult_comm (inject_Z k)). by apply Qmult_le_compat_r. }
        unfold c52, c53 in *. lra. }
    revert Hbest. qabs; intros; unfold c52 in *; lra.
Qed.

End nearest.

(** ** Rounding to a float *)

Lemma is_double_0 : is_double 0.
Proof. exists 0, 0. split; [done|]. split; [lia|reflexivity]. Qed.

Lemma is_double_opp x : is_double x → is_double (- x).
Proof.
  intros (m & e & Hm & He & Hx). exists (- m), e. split; [lia|]. split; [done|].
  rewrite inject_Z_opp, Hx. ring.
Qed.

Lemma rounds_to_Qeq q q' v : (q == q')%Q → rounds_to q v → rounds_to q' v.
Proof.
  intros Hq [Hv Hbest]. split; [done|]. intros d Hd. rewrite <- Hq. by apply Hbest.
Qed.

Lemma rounds_to_opp q v : rounds_to q v → rounds_to (- q) (- v).
Proof.
  intros [Hv Hbest]. split; [by apply is_double_opp|]. intros d Hd.
  specialize (Hbest (- d)%Q (is_double_opp d Hd)).
  setoid_replace (- v - - q)%Q with (- (v - q))%Q using relation Qeq by ring.
  setoid_replace (d - - q)%Q with (- (- d - q))%Q using relation Qeq by ring.
  by rewrite !Qabs_opp.
Qed.

(** A value that is a float already is not changed. *)
Lemma rounds_to_exact q v : is_double q → rounds_to q v → (v == q)%Q.
Proof.
  intros Hq [_ Hbest]. specialize (Hbest q Hq). revert Hbest.
  setoid_replace (q - q)%Q with 0%Q using relation Qeq by ring.
  change (Qabs 0) with 0%Q. qabs; lra.
Qed.

Lemma nearest_rounds q :
  (0 < q)%Q → Qle_bool (2 ^ 1024) (float.nearest q) = false →
  rounds_to q (float.nearest q).
Proof.
  intros Hq Hfin. split; [|intros d; by apply nearest_closest].
  apply nearest_is_double; [done|]. apply Qnot_le_lt. intros H.
  apply Qle_bool_iff in H. congruence.
Qed.

Lemma of_Q_spec q msg v : float.of_Q q msg = Ok v → rounds_to q v.
Proof.
  unfold float.of_Q. destruct (Qcompare_spec q 0) as [H|H|H].
  - intros [= <-]. apply (rounds_to_Qeq 0); [by symmetry|].
    split; [apply is_double_0|]. intros d _.
    setoid_replace (0 - 0)%Q with 0%Q using relation Qeq by ring. apply Qabs_nonneg.
  - destruct (Qle_bool (2 ^ 1024) (float.nearest (- q))) eqn:E; [done|].
    intros [= <-]. apply (rounds_to_Qeq (- - q)); [ring|].
    apply rounds_to_opp, nearest_rounds; [lra|done].
  - destruct (Qle_bool (2 ^ 1024) (float.nearest q)) eqn:E; [done|].
    intros [= <-]. by apply nearest_rounds.
Qed.

Lemma pow2_1000_facts :
  (1 <= 2 ^ 1000)%Q ∧ (2 ^ 1002 == 4 * 2 ^ 1000)%Q ∧ (2 ^ 1002 <= 2 ^ 1024)%Q.
Proof.
  split; [|split].
  - change 1%Q with (2 ^ 0)%Q. by apply pow2_le.
  - change 1002 with (2 + 1000). rewrite pow2_add. reflexivity.
  - by apply pow2_le.
Qed.

(** Below [2 ^ 1000] the conversion does not overflow. *)
Lemma of_Q_ok q msg :
  (0 <= q)%Q → (q < 2 ^ 1000)%Q →
  ∃ v, float.of_Q q msg = Ok v ∧ (0 <= v)%Q ∧ (v < 2 ^ 1002)%Q.
Proof.
  intros H0 Hq. destruct pow2_1000_facts as (H1 & H2 & H3).
  unfold float.of_Q. destruct (Qcompare_spec q 0) as [H|H|H].
  - exists 0%Q. split; [done|]. split; lra.
  - lra.
  - pose proof (nearest_le q H) as Hle. pose proof (nearest_nonneg q H) as Hge.
    destruct (Qle_bool (2 ^ 1024) (float.nearest q)) eqn:E.
    + apply Qle_bool_iff in E. lra.
    + exists (float.nearest q). split; [done|]. split; lra.
Qed.

Lemma inject_Z_div_nonneg a b : 0 ≤ a → 0 < b → (0 <= inject_Z a / inject_Z b)%Q.
Proof.
  intros Ha Hb. destruct (Qfrac_bounds a b 0 (a + 1)) as [H _]; [lia..|nia|done].
Qed.

Lemma inject_Z_div_lt a b c : 0 < b → a < c * b → (inject_Z a / inject_Z b < inject_Z c)%Q.
Proof.
  intros Hb Hlt. destruct b as [|p|p]; [lia| |lia].
  unfold Qlt, Qdiv, Qmult, Qinv, inject_Z. simpl. lia.
Qed.

Lemma true_div_spec a b v :
  float.true_div a b = Ok v → b ≠ 0 ∧ rounds_to (inject_Z a / inject_Z b) v.
Proof.
  unfold float.true_div. destruct (Z.eqb_spec b 0); [done|].
  intros H. split; [done|]. by eapply of_Q_spec.
Qed.

Lemma true_div_ok a b :
  0 ≤ a → 0 < b → a < 2 ^ 1000 * b →
  ∃ v, float.true_div a b = Ok v ∧ (0 <= v)%Q ∧ (v < 2 ^ 1002)%Q.
Proof.
  intros Ha Hb Hlt. unfold float.true_div.
  destruct (Z.eqb_spec b 0); [lia|]. apply of_Q_ok.
  - by apply inject_Z_div_nonneg.
  - rewrite <- pow2_Z by done. by apply inject_Z_div_lt.
Qed.

(** ** The statistics as they are computed *)

Lemma Qred_inject_Z k : Qred (inject_Z k) = inject_Z k.
Proof.
  unfold Qred, inject_Z.
  pose proof (Z.ggcd_gcd k 1) as Hg. pose proof (Z.ggcd_correct_divisors k 1) as Hd.
  destruct (Z.ggcd k 1) as [g [aa bb]]. simpl in Hg, Hd.
  rewrite Z.gcd_1_r in Hg. subst g. destruct Hd as [Ha Hb].
  assert (aa = k) as -> by lia. assert (bb = 1) as -> by lia. done.
Qed.

Lemma convert_int a n :
  0 < n → (n | a) → computed._convert (inject_Z a / inject_Z n) = Ok (Int (a / n)).
Proof.
  intros Hn [k ->]. unfold computed._convert. cbv zeta.
  assert (Qred (inject_Z (k * n) / inject_Z n) = inject_Z k) as ->.
  { transitivity (Qred (inject_Z k)); [|apply Qred_inject_Z].
    apply Qred_complete. rewrite inject_Z_mult. field. apply inject_Z_nonzero. lia. }
  simpl. rewrite Z.div_mul by lia. done.
Qed.

Lemma convert_float a n :
  0 < n → ¬ (n | a) →
  ∃ p d, computed._convert (inject_Z a / inject_Z n)
           = (x ← float.true_div p (Z.pos d); Ok (Float x)) ∧
         p * n = a * Z.pos d.
Proof.
  intros Hn Hdiv. unfold computed._convert. cbv zeta.
  pose proof (Qred_correct (inject_Z a / inject_Z n)) as Hred.
  destruct (Qred (inject_Z a / inject_Z n)) as [p d]. simpl Qnum. simpl Qden.
  assert (p * n = a * Z.pos d) as Hpd.
  { destruct n as [|n|n]; [lia| |lia].
    revert Hred. unfold Qeq, Qdiv, Qmult, Qinv, inject_Z. simpl. lia. }
  exists p, d. split; [|done]. case_decide as Hd; [|done].
  exfalso. apply Hdiv. exists p. subst d. lia.
Qed.

Lemma Qdiv_cross p d a n :
  0 < n → p * n = a * Z.pos d →
  (inject_Z p / inject_Z (Z.pos d) == inject_Z a / inject_Z n)%Q.
Proof.
  intros Hn H. destruct n as [|n|n]; [lia| |lia].
  unfold Qeq, Qdiv, Qmult, Qinv, inject_Z. simpl. lia.
Qed.

Lemma divide_cases n a : 0 < n → (n | a) ∨ ¬ (n | a).
Proof.
  intros Hn. destruct (decide (a mod n = 0)) as [H|H].
  - left. apply Z.mod_divide; [lia|done].
  - right. intros Hd. apply H. apply Z.mod_divide; [lia|done].
Qed.

Lemma computed_mean_spec data avg :
  computed.mean data = Ok avg →
  let n := Z.of_nat (length data) in
  0 < n ∧
  ((n | sum data) → avg = Int (sum data / n)) ∧
  (¬ (n | sum data) →
   ∃ x, avg = Float x ∧ rounds_to (inject_Z (sum data) / inject_Z n) x).
Proof.
  unfold computed.mean. cbv zeta.
  destruct (Z.ltb_spec (Z.of_nat (length data)) 1) as [|Hn]; [done|].
  intros H. split; [lia|]. split.
  - intros Hdiv. rewrite convert_int in H by (done || lia). by injection H as <-.
  - intros Hdiv. destruct (convert_float (sum data) (Z.of_nat (length data)))
      as (p & d & Hc & Hpd); [lia|done|].
    rewrite Hc in H. destruct (float.true_div p (Z.pos d)) as [x|] eqn:Hx; [|done].
    injection H as <-. exists x. split; [done|].
    apply true_div_spec in Hx as [_ Hx].
    eapply rounds_to_Qeq; [|exact Hx]. apply Qdiv_cross; [lia|done].
Qed.

Lemma computed_mean_ok data :
  data ≠ [] → (∀ d, d ∈ data → 0 ≤ d < 2 ^ 1000) → ∃ avg, computed.mean data = Ok avg.
Proof.
  intros Hne Hb. unfold computed.mean. cbv zeta.
  destruct (Z.ltb_spec (Z.of_nat (length data)) 1) as [|Hn].
  { destruct data; [done|]. simpl in *. lia. }
  destruct (divide_cases (Z.of_nat (length data)) (sum data)) as [Hdiv|Hdiv]; [lia|..].
  - rewrite convert_int by (done || lia). eauto.
  - destruct (convert_float (sum data) (Z.of_nat (length data)))
      as (p & d & -> & Hpd); [lia|done|].
    assert (∀ x, x ∈ data → 0 ≤ x ≤ 2 ^ 1000 - 1) as Hb'.
    { intros x Hx. specialize (Hb x Hx). lia. }
    apply sum_bounds in Hb'.
    destruct (true_div_ok p (Z.pos d)) as (v & -> & _); [nia|lia|nia|].
    simpl. eauto.
Qed.

Lemma computed_median_spec data med :
  computed.median data = Ok med →
  let s := statistics.sorted data in
  let n := length data in
  ((n mod 2 = 1)%nat → med = Int (nth (n / 2) s 0)) ∧
  ((n mod 2 = 0)%nat →
   ∃ x, med = Float x ∧
        rounds_to (inject_Z (nth (n / 2 - 1) s 0%Z + nth (n / 2) s 0%Z) / 2) x).
Proof.
  unfold computed.median. cbv zeta.
  assert (length (statistics.sorted data) = length data) as ->.
  { apply Permutation_length, sorted_spec. }
  case_decide; [done|]. case_decide as Hodd.
  - intros [= <-]. split; [done|]. intros H'. rewrite H' in Hodd. done.
  - intros H'. split; [done|]. intros _.
    destruct (float.true_div _ 2) as [x|] eqn:Hx; [|done].
    injection H' as <-. exists x. split; [done|].
    by apply true_div_spec in Hx as [_ Hx].
Qed.

Lemma computed_median_ok data :
  data ≠ [] → (∀ d, d ∈ data → 0 ≤ d < 2 ^ 1000) → ∃ med, computed.median data = Ok med.
Proof.
  intros Hne Hb. unfold computed.median. cbv zeta.
  pose proof (sorted_spec data) as [_ Hperm].
  assert (length (statistics.sorted data) = length data) as Hlen
    by by apply Permutation_length.
  assert (∀ i, (i < length data)%nat →
               0 ≤ nth i (statistics.sorted data) 0 < 2 ^ 1000) as Hnth.
  { intros i Hi. apply Hb, list_elem_of_In.
    eapply Permutation_in; [exact Hperm|]. apply nth_In. lia. }
  rewrite Hlen.
  assert (length data ≠ 0%nat → length data / 2 < length data)%nat as Hi
    by (intros ?; apply Nat.div_lt; lia).
  set (i := (length data / 2)%nat) in *.
  case_decide as H0; [by destruct data|]. specialize (Hi H0).
  case_decide as Hodd; [eauto|].
  pose proof (Hnth _ Hi). pose proof (Hnth (i - 1)%nat ltac:(lia)).
  destruct (true_div_ok (nth (i - 1) (statistics.sorted data) 0
                         + nth i (statistics.sorted data) 0) 2)
    as (v & -> & _); [lia..|].
  simpl. eauto.
Qed.

Lemma double_finite x :
  (x < 2 ^ 1002)%Q → ∃ y, computed.double x = Float y ∧ (y == 2 * x)%Q.
Proof.
  intros Hx. unfold computed.double. cbv zeta.
  destruct (Qle_bool (2 ^ 1024) (Qred (x * 2))) eqn:E.
  - apply Qle_bool_iff in E. rewrite Qred_correct in E.
    assert (2 ^ 1024 == 2 ^ 22 * 2 ^ 1002)%Q as H by (by rewrite <- pow2_add).
    assert (2 <= 2 ^ 22)%Q as H22 by (change 2%Q with (2 ^ 1)%Q at 1; by apply pow2_le).
    pose proof (pow2_pos 1002) as Hp.
    assert (2 * 2 ^ 1002 <= 2 ^ 22 * 2 ^ 1002)%Q by (apply Qmult_le_r; done).
    lra.
  - eexists. split; [done|]. rewrite Qred_correct. ring.
Qed.

Lemma number_of_edges_bounds G :
  0 ≤ number_of_edges G ∧ 2 * number_of_edges G ≤ sum (degree G).*2.
Proof.
  unfold number_of_edges. split.
  - apply Z.div_pos; [|lia]. apply sum_nonneg, degrees_nonneg.
  - apply Z.mul_div_le. lia.
Qed.

Lemma computed_density_spec G dens :
  computed.density G = Ok dens →
  let N := number_of_nodes G in
  let E := number_of_edges G in
  (E = 0 ∨ N ≤ 1 → dens = Int 0) ∧
  (E ≠ 0 → 1 < N →
   ∃ x, dens = computed.double x ∧ rounds_to (inject_Z E / inject_Z (N * (N - 1))) x).
Proof.
  unfold computed.density. cbv zeta.
  destruct (Z.eqb_spec (number_of_edges G) 0) as [HE|HE]; simpl.
  { intros [= <-]. split; [done|]. intros; lia. }
  destruct (Z.leb_spec (number_of_nodes G) 1) as [HN|HN].
  { intros [= <-]. split; [done|]. intros; lia. }
  destruct (float.true_div _ _) as [x|] eqn:Hx; [|done]. simpl.
  intros [= <-]. split; [lia|]. intros _ _. exists x. split; [done|].
  by apply true_div_spec in Hx as [_ Hx].
Qed.

Lemma computed_density_ok G :
  (∀ d, d ∈ (degree G).*2 → d < 2 ^ 1000) →
  ∃ dens, computed.density G = Ok dens ∧
    (number_of_edges G ≠ 0 → 1 < number_of_nodes G →
     ∃ x y, dens = Float y ∧ (y == 2 * x)%Q ∧
            rounds_to (inject_Z (number_of_edges G)
                       / inject_Z (number_of_nodes G * (number_of_nodes G - 1))) x).
Proof.
  intros Hb. unfold computed.density. cbv zeta.
  destruct (Z.eqb_spec (number_of_edges G) 0) as [HE|HE]; simpl.
  { eexists. split; [done|]. intros; lia. }
  destruct (Z.leb_spec (number_of_nodes G) 1) as [HN|HN].
  { eexists. split; [done|]. intros; lia. }
  pose proof (number_of_edges_bounds G) as [HE0 HE2].
  assert (∀ d, d ∈ (degree G).*2 → 0 ≤ d ≤ 2 ^ 1000 - 1) as Hb'.
  { intros d Hd. pose proof (degrees_nonneg _ _ Hd). specialize (Hb d Hd). lia. }
  apply sum_bounds in Hb' as [_ Hs]. rewrite degrees_length in Hs.
  change (Z.of_nat (length G)) with (number_of_nodes G) in Hs.
  destruct (true_div_ok (number_of_edges G) (number_of_nodes G * (number_of_nodes G - 1)))
    as (x & Hx & _ & Hlt); [done|nia|nia|].
  rewrite Hx. simpl. destruct (double_finite x Hlt) as (y & Hy & Hyx).
  eexists. split; [done|]. intros _ _. exists x, y. split; [done|]. split; [done|].
  by apply true_div_spec in Hx as [_ Hx].
Qed.

Lemma computed_stats_ok G :
  G ≠ [] → (∀ d, d ∈ (degree G).*2 → d < 2 ^ 1000) →
  ∃ dens avg med mx,
    computed.density G = Ok dens ∧
    computed.mean (degree G).*2 = Ok avg ∧
    computed.median (degree G).*2 = Ok med ∧
    builtins.max (degree G).*2 = Ok mx ∧
    computed.get_and_print_stats G
      = Ok (computed.Report.make (number_of_nodes G) (number_of_edges G) dens avg med mx,
            ((degree G).*2, avg, med)).
Proof.
  intros HG Hb.
  assert ((degree G).*2 ≠ []) as Hne.
  { intros H. apply (f_equal length) in H. rewrite degrees_length in H.
    by destruct G. }
  assert (∀ d, d ∈ (degree G).*2 → 0 ≤ d < 2 ^ 1000) as Hb'.
  { intros d Hd. split; [by eapply degrees_nonneg|by apply Hb]. }
  destruct (computed_density_ok G Hb) as (dens & Hdens & _).
  destruct (computed_mean_ok _ Hne Hb') as [avg Havg].
  destruct (computed_median_ok _ Hne Hb') as [med Hmed].
  assert (∃ mx, builtins.max (degree G).*2 = Ok mx) as [mx Hmx].
  { destruct ((degree G).*2); [done|]. simpl. eauto. }
  exists dens, avg, med, mx. repeat split; try done.
  unfold computed.get_and_print_stats. rewrite Hdens, Havg, Hmed, Hmx. done.
Qed.

(** C8 (as amended): on a graph with at least one node, and degrees below
    [2 ^ 1000], the statistics step succeeds.  It prints the node and edge
    counts, the density, the mean, the median and the largest degree, and
    returns the degrees with the mean and the median only.  The density is
    the [int] 0 when there is no edge or a single node, and otherwise twice
    the float nearest to [E / (N (N - 1))]; the mean is the [int]
    [sum / N] when [N] divides the sum of the degrees, and otherwise the
    float nearest to it; the median is the middle value of the sorted
    degrees, an [int], when their number is odd, and the float nearest to
    the half-sum of the two middle values when it is even.  On the file with
    the lines "0 1", "1 2", "2 3" this is 4 nodes, 3 edges, degrees 1, 2, 2,
    1 for nodes 0 .. 3, density 0.5, mean 1.5, median 1.5 and maximum 2. *)
Theorem computed_stats_values :
  (∀ G, 0 < number_of_nodes G → Forall (λ d, d < 2 ^ 1000) (degree G).*2 →
     let N := number_of_nodes G in
     let E := number_of_edges G in
     let degrees := (degree G).*2 in
     let s := statistics.sorted degrees in
     let n := length degrees in
     ∃ dens avg med mx,
       computed.get_and_print_stats G
         = Ok (computed.Report.make N E dens avg med mx, (degrees, avg, med)) ∧
       (E = 0 ∨ N ≤ 1 → dens = Int 0) ∧
       (E ≠ 0 → 1 < N →
        ∃ x y, dens = Float y ∧ (y == 2 * x)%Q ∧
               rounds_to (inject_Z E / inject_Z (N * (N - 1))) x) ∧
       ((N | sum degrees) → avg = Int (sum degrees / N)) ∧
       (¬ (N | sum degrees) →
        ∃ x, avg = Float x ∧ rounds_to (inject_Z (sum degrees) / inject_Z N) x) ∧
       StronglySorted Z.le s ∧ s ≡ₚ degrees ∧
       ((n mod 2 = 1)%nat → med = Int (nth (n / 2) s 0)) ∧
       ((n mod 2 = 0)%nat →
        ∃ x, med = Float x ∧
             rounds_to (inject_Z (nth (n / 2 - 1) s 0%Z + nth (n / 2) s 0%Z) / 2) x) ∧
       mx ∈ degrees ∧ (∀ d, d ∈ degrees → d ≤ mx)) ∧
  (load_graph chain = Ok chain_graph ∧
   number_of_nodes chain_graph = 4 ∧
   number_of_edges chain_graph = 3 ∧
   degree chain_graph = [(0, 1); (1, 2); (2, 2); (3, 1)] ∧
   computed.get_and_print_stats chain_graph
     = Ok (computed.Report.make 4 3 (Float (1 # 2)) (Float (3 # 2)) (Float (3 # 2)) 2,
           ([1; 2; 2; 1], Float (3 # 2), Float (3 # 2)))).
Proof.
  split; [|by vm_compute].
  intros G HN Hb. cbv zeta. rewrite Forall_forall in Hb.
  assert (G ≠ []) as HG by (intros ->; unfold number_of_nodes in HN; simpl in HN; lia).
  destruct (computed_stats_ok G HG Hb) as (dens & avg & med & mx & Hd & Ha & Hm & Hx & Hrun).
  exists dens, avg, med, mx. split; [exact Hrun|].
  pose proof (computed_density_spec _ _ Hd) as [Hd0 _].
  destruct (computed_density_ok G Hb) as (dens' & Hd' & Hd1).
  rewrite Hd in Hd'. injection Hd' as <-.
  pose proof (computed_mean_spec _ _ Ha) as (_ & Ha1 & Ha2).
  rewrite degrees_length in Ha1, Ha2.
  pose proof (sorted_spec (degree G).*2) as [Hs1 Hs2].
  pose proof (computed_median_spec _ _ Hm) as [Ho He].
  pose proof (max_spec _ _ Hx) as [Hx1 Hx2].
  repeat split; try done.
Qed.

Lemma computed_stats_values_witness :
  ∃ dens avg med mx,
    computed.get_and_print_stats star_graph
      = Ok (computed.Report.make (number_of_nodes star_graph) (number_of_edges star_graph)
              dens avg med mx,
            ((degree star_graph).*2, avg, med)) ∧
    dens = Float (6004799503160661 # 18014398509481984) ∧
    avg = Float (7505999378950827 # 4503599627370496) ∧
    med = Float 1 ∧ mx = 4.
Proof.
  destruct computed_stats_values as [H _].
  destruct (H star_graph) as (dens & avg & med & mx & Hrun & _).
  - by vm_compute.
  - apply (bool_decide_unpack _). by vm_compute.
  - exists dens, avg, med, mx. split; [exact Hrun|].
    vm_compute in Hrun. by injection Hrun as -> -> -> ->.
Defined.

(** C8 (as stated) fails: on the path of three nodes the function returns
    the degrees, the mean and the median only, the density and the maximum
    being printed; and the returned mean of the degrees 1, 2, 1 is the float
    next to 4/3, which times 3 is not 4. *)
Lemma returned_mean_is_rounded :
  computed.get_and_print_stats two_lines_graph
    = Ok (computed.Report.make 3 2
            (Float (6004799503160661 # 9007199254740992))
            (Float (6004799503160661 # 4503599627370496)) (Int 1) 2,
          ([1; 2; 1], Float (6004799503160661 # 4503599627370496), Int 1)) ∧
  sum [1; 2; 1] = 4 ∧
  ¬ ((6004799503160661 # 4503599627370496) * 3 == 4)%Q.
Proof. split; [by vm_compute|]. split; [done|]. by vm_compute. Qed.

(** ** Mean degree and density of a loaded graph *)

(** In a well-formed graph a node has at most every node as a neighbour,
    itself included, and a loop counts once more. *)
Lemma degree_at_most_nodes G d :
  wf G → d ∈ (degree G).*2 → d ≤ number_of_nodes G + 1.
Proof.
  intros Hwf ([n d'] & -> & Hd)%list_elem_of_fmap. simpl.
  apply elem_of_degree in Hd as (l & Hin & ->).
  pose proof Hwf as (Hnd & Hl & Hsym)%wf_alt.
  pose proof (elem_of_adj _ _ _ Hnd Hin) as Hadj.
  assert (length l ≤ length (nodes G))%nat as Hlen.
  { apply submseteq_length, NoDup_submseteq; [by eapply Hl|].
    intros x Hx. eapply has_node_nodes, has_edge_has_node, Hsym, has_edge_spec. eauto. }
  unfold nodes in Hlen. rewrite length_fmap in Hlen.
  unfold number_of_nodes. case_decide; lia.
Qed.

Lemma loaded_edges_positive lines G :
  load_graph lines = Ok G → G ≠ [] →
  sum (degree G).*2 = 2 * number_of_edges G ∧ 0 < number_of_edges G.
Proof.
  intros Hload HG. pose proof (load_graph_handshake _ _ Hload) as [_ Hsum].
  assert (number_of_edges G = Z.of_nat (size (distinct_pairs (listed_pairs lines)))) as HE.
  { unfold number_of_edges. rewrite Hsum, (Z.mul_comm 2), Z.div_mul by done. done. }
  split; [lia|]. rewrite HE.
  apply parse_edgelist_add_edges in Hload.
  destruct (listed_pairs lines) as [|[u v] pairs] eqn:Hp; [by subst G|].
  assert (unordered (u, v) ∈ distinct_pairs ((u, v) :: pairs)) as Hin.
  { apply elem_of_distinct_pairs. left. left. }
  assert (size (distinct_pairs ((u, v) :: pairs)) ≠ 0%nat); [|lia].
  intros H0. apply size_empty_inv in H0. rewrite H0 in Hin. set_solver.
Qed.

Lemma length_remove_dups_le (l : list Z) : (length (remove_dups l) ≤ length l)%nat.
Proof.
  induction l as [|x l IH]; simpl; [done|]. case_decide; simpl; lia.
Qed.

Lemma length_first_seen_le l : (length (first_seen l) ≤ length l)%nat.
Proof.
  unfold first_seen. rewrite length_reverse.
  etrans; [apply length_remove_dups_le|]. by rewrite length_reverse.
Qed.

Lemma length_endpoints pairs : length (endpoints pairs) = (2 * length pairs)%nat.
Proof.
  unfold endpoints. induction pairs as [|e pairs IH]; [done|].
  rewrite bind_cons, length_app, IH. simpl length. lia.
Qed.

Lemma length_listed_pairs lines : (length (listed_pairs lines) ≤ length lines)%nat.
Proof.
  unfold listed_pairs. induction lines as [|line lines IH]; [done|].
  assert (omap line_pair (line :: lines)
          = match line_pair line with
            | Some e => e :: omap line_pair lines
            | None => omap line_pair lines
            end) as -> by done.
  destruct (line_pair line); simpl length; lia.
Qed.

(** A file names at most two new nodes per line. *)
Lemma loaded_nodes_bound lines G :
  load_graph lines = Ok G → number_of_nodes G ≤ 2 * Z.of_nat (length lines).
Proof.
  intros ->%parse_edgelist_add_edges. unfold number_of_nodes.
  pose proof (nodes_add_edges (listed_pairs lines)) as H.
  apply (f_equal length) in H. unfold nodes in H at 1. rewrite length_fmap in H.
  fold empty_graph. rewrite H.
  pose proof (length_first_seen_le (endpoints (listed_pairs lines))) as H1.
  rewrite length_endpoints in H1.
  pose proof (length_listed_pairs lines). lia.
Qed.

(** In a graph loaded from fewer than [2 ^ 64] lines no degree is near the
    range of a float. *)
Lemma loaded_degrees_small lines G :
  Z.of_nat (length lines) < 2 ^ 64 → load_graph lines = Ok G →
  ∀ d, d ∈ (degree G).*2 → d < 2 ^ 1000.
Proof.
  intros Hsize Hload d Hd.
  pose proof (wf_load_graph _ _ Hload) as Hwf.
  pose proof (loaded_nodes_bound _ _ Hload) as HN.
  pose proof (degree_at_most_nodes _ _ Hwf Hd).
  assert (2 ^ 64 * 4 ≤ 2 ^ 1000) by (by apply Z.leb_le; vm_compute). lia.
Qed.

(** X9: a file of fewer than [2 ^ 64] lines that loads and names a node
    gives a graph on which the statistics step succeeds.  The sum of the
    degrees is twice the number of edges, and there is an edge.  The
    returned mean degree is [2 E / N] rounded to a float, and the [int]
    [2 E / N] itself when [N] divides [2 E]; with two nodes or more the
    printed density is twice the float nearest to [E / (N (N - 1))]. *)
Theorem loaded_mean_degree lines G :
  Z.of_nat (length lines) < 2 ^ 64 → load_graph lines = Ok G → G ≠ [] →
  let N := number_of_nodes G in
  let E := number_of_edges G in
  ∃ dens avg med mx,
    computed.get_and_print_stats G
      = Ok (computed.Report.make N E dens avg med mx, ((degree G).*2, avg, med)) ∧
    0 < E ∧ sum (degree G).*2 = 2 * E ∧
    ((N | 2 * E) → avg = Int (2 * E / N)) ∧
    (¬ (N | 2 * E) →
     ∃ x, avg = Float x ∧ rounds_to (inject_Z (2 * E) / inject_Z N) x) ∧
    (1 < N →
     ∃ x y, dens = Float y ∧ (y == 2 * x)%Q ∧
            rounds_to (inject_Z E / inject_Z (N * (N - 1))) x).
Proof.
  intros Hsize Hload HG. cbv zeta.
  pose proof (loaded_degrees_small _ _ Hsize Hload) as Hb.
  destruct (computed_stats_ok G HG Hb) as (dens & avg & med & mx & Hd & Ha & _ & _ & Hrun).
  exists dens, avg, med, mx. split; [exact Hrun|].
  pose proof (computed_mean_spec _ _ Ha) as (_ & Ha1 & Ha2).
  rewrite degrees_length in Ha1, Ha2.
  change (Z.of_nat (length G)) with (number_of_nodes G) in Ha1, Ha2.
  destruct (loaded_edges_positive _ _ Hload HG) as [Hsum HE].
  rewrite Hsum in Ha1, Ha2.
  repeat split; try done.
  intros HN1. destruct (computed_density_ok G Hb) as (dens' & Hd' & Hd1).
  rewrite Hd in Hd'. injection Hd' as <-. apply Hd1; [lia|done].
Qed.

Lemma loaded_mean_degree_witness :
  ∃ dens avg med mx,
    computed.get_and_print_stats chain_graph
      = Ok (computed.Report.make (number_of_nodes chain_graph) (number_of_edges chain_graph)
              dens avg med mx,
            ((degree chain_graph).*2, avg, med)) ∧
    0 < number_of_edges chain_graph ∧
    sum (degree chain_graph).*2 = 2 * number_of_edges chain_graph ∧
    ((number_of_nodes chain_graph | 2 * number_of_edges chain_graph) →
     avg = Int (2 * number_of_edges chain_graph / number_of_nodes chain_graph)) ∧
    (¬ (number_of_nodes chain_graph | 2 * number_of_edges chain_graph) →
     ∃ x, avg = Float x ∧
          rounds_to (inject_Z (2 * number_of_edges chain_graph)
                     / inject_Z (number_of_nodes chain_graph)) x) ∧
    (1 < number_of_nodes chain_graph →
     ∃ x y, dens = Float y ∧ (y == 2 * x)%Q ∧
            rounds_to (inject_Z (number_of_edges chain_graph)
                       / inject_Z (number_of_nodes chain_graph
                                   * (number_of_nodes chain_graph - 1))) x).
Proof.
  apply (loaded_mean_degree chain chain_graph).
  - vm_compute. reflexivity.
  - vm_compute. reflexivity.
  - discriminate.
Defined.

(** ** Plain lines: what fails to load, and comments *)

Lemma parse_line_raise_plain G line e :
  plain line → parse_line G line = Raise e →
  (∃ msg, e = TypeError msg) ∧
  ∃ su sv, Text.split (Text.strip_comment line) = [su; sv] ∧
           (Text.int su = None ∨ Text.int sv = None).
Proof.
  unfold plain, parse_line. intros [_ Hlen%Is_true_true%Nat.leb_le]%andb_True.
  destruct (Text.split (Text.strip_comment line)) as [|su [|sv d]]; [done..|].
  destruct d; [|simpl in Hlen; lia].
  destruct (Text.int su) eqn:Hu, (Text.int sv) eqn:Hv; try done;
    intros [= <-]; (split; [by eexists|]); exists su, sv; auto.
Qed.

(** X4: on plain lines, loading fails only with the loader's [TypeError],
    raised at a line of two fields of which one is no integer; and it stops
    at the first such line: when the lines before it load and the line
    itself raises, the whole load raises that error, whatever follows. *)
Theorem load_stops_at_first_bad_line pre line post G e :
  Forall (λ l, plain l) pre → plain line →
  load_graph pre = Ok G → parse_line G line = Raise e →
  load_graph (pre ++ line :: post) = Raise e ∧
  (∃ msg, e = TypeError msg) ∧
  (∃ su sv, Text.split (Text.strip_comment line) = [su; sv] ∧
            (Text.int su = None ∨ Text.int sv = None)) ∧
  ∀ lines e', Forall (λ l, plain l) lines →
              load_graph lines = Raise e' → ∃ msg, e' = TypeError msg.
Proof.
  intros _ Hplain Hpre Hline.
  destruct (parse_line_raise_plain _ _ _ Hplain Hline) as [Hmsg Hfields].
  repeat split; try done.
  - unfold load_graph in *. rewrite (parse_edgelist_app_cons _ _ _ _ Hpre).
    simpl. by rewrite Hline.
  - intros lines e' _. apply parse_edgelist_raise.
Qed.

Lemma load_stops_at_first_bad_line_witness :
  load_graph (two_lines ++ "2 x"%string :: chain)
    = Raise (TypeError "Failed to convert nodes to type int.") ∧
  (∃ msg, TypeError "Failed to convert nodes to type int." = TypeError msg) ∧
  (∃ su sv, Text.split (Text.strip_comment "2 x") = [su; sv] ∧
            (Text.int su = None ∨ Text.int sv = None)) ∧
  ∀ lines e', Forall (λ l, plain l) lines →
              load_graph lines = Raise e' → ∃ msg, e' = TypeError msg.
Proof.
  apply (load_stops_at_first_bad_line two_lines "2 x"%string chain two_lines_graph).
  - apply (bool_decide_unpack _). vm_compute. exact I.
  - vm_compute. exact I.
  - vm_compute. reflexivity.
  - vm_compute. reflexivity.
Defined.

Lemma ascii_only_app s t :
  ascii_only (s ++ t)%string = ascii_only s && ascii_only t.
Proof.
  induction s as [|c s IH]; simpl; [done|]. rewrite IH. by rewrite andb_assoc.
Qed.

(** X5: on ASCII text the loader reads a line up to its first comment
    sign: a plain line followed by a "#" and more ASCII text is still ASCII
    and loads what the plain line loads, and a line that starts with the
    sign leaves the graph as it is. *)
Theorem comment_ignored G s t :
  plain s → ascii_only t →
  ascii_only (s ++ String "#" t) ∧
  parse_line G (s ++ String "#" t)%string = parse_line G s ∧
  parse_line G (String "#" t) = Ok G.
Proof.
  intros [[Hs _]%andb_True _]%andb_True Ht. split; [|split; [|done]].
  - rewrite ascii_only_app. apply andb_True. split; [done|]. exact Ht.
  - unfold parse_line. by rewrite strip_comment_app.
Qed.

Lemma comment_ignored_witness :
  ascii_only ("1 5 " ++ String "#" " hub") ∧
  parse_line star_path_long ("1 5 " ++ String "#" " hub")%string
    = parse_line star_path_long "1 5 " ∧
  parse_line star_path_long (String "#" " hub") = Ok star_path_long.
Proof.
  apply (comment_ignored star_path_long "1 5 " " hub"); vm_compute; exact I.
Defined.

(** ** A run of [analyze_graph.py] that fails *)

(** X20: a run on a file of plain lines, fewer than [2 ^ 64] of them,
    fails in two ways only, and shows nothing but the loading notice before
    it does: with the loader's [TypeError], or, when the file lists no pair
    at all, with the [StatisticsError] of the mean.  No quotient is too
    large for a float, and the [ValueError] of the [max] in
    [plot_degree_distribution] cannot occur in a run. *)
Theorem analyze_main_failures lines outs e :
  Forall (λ l, plain l) lines → Z.of_nat (length lines) < 2 ^ 64 →
  computed.main (Some lines) = (outs, Raise e) →
  outs = [computed.Loading] ∧
  ((load_graph lines = Raise e ∧ ∃ msg, e = TypeError msg) ∨
   (load_graph lines = Ok [] ∧ listed_pairs lines = [] ∧
    e = StatisticsError "mean requires at least one data point")).
Proof.
  intros _ Hsize. unfold computed.main.
  destruct (load_graph lines) as [G|e'] eqn:Hload.
  - destruct (decide (G = [])) as [->|HG].
    + simpl. intros [= <- <-]. split; [done|]. right.
      split; [done|]. split; [by apply load_graph_empty|done].
    + pose proof (loaded_degrees_small _ _ Hsize Hload) as Hb.
      destruct (computed_stats_ok G HG Hb) as (dens & avg & med & mx & _ & _ & _ & Hmx & ->).
      unfold computed.plot_degree_distribution. by rewrite Hmx.
  - intros [= <- <-]. split; [done|]. left. split; [done|].
    by eapply parse_edgelist_raise.
Qed.

Lemma analyze_main_failures_witness :
  [computed.Loading] = [computed.Loading] ∧
  ((load_graph ["# no edges"%string] = Raise (StatisticsError "mean requires at least one data point")
    ∧ ∃ msg, StatisticsError "mean requires at least one data point" = TypeError msg) ∨
   (load_graph ["# no edges"%string] = Ok [] ∧ listed_pairs ["# no edges"%string] = [] ∧
    StatisticsError "mean requires at least one data point"
      = StatisticsError "mean requires at least one data point")).
Proof.
  apply (analyze_main_failures ["# no edges"%string] [computed.Loading]).
  - apply (bool_decide_unpack _). vm_compute. exact I.
  - vm_compute. reflexivity.
  - vm_compute. reflexivity.
Defined.

(** ** The computed statistics round the exact ones *)

Lemma computed_mean_exact data q v :
  statistics.mean data = Ok q → computed.mean data = Ok v → stands_for v q.
Proof.
  intros Hq Hv. apply mean_spec in Hq.
  apply computed_mean_spec in Hv as (Hn & H1 & H2).
  assert (¬ (inject_Z (Z.of_nat (length data)) == 0)%Q) as Hn0
    by (apply inject_Z_nonzero; lia).
  assert (q == inject_Z (sum data) / inject_Z (Z.of_nat (length data)))%Q as Hq'.
  { rewrite <- Hq. by field. }
  destruct (divide_cases (Z.of_nat (length data)) (sum data) Hn) as [Hd|Hd].
  - rewrite (H1 Hd). simpl. rewrite Hq'. destruct Hd as [k ->].
    rewrite Z.div_mul by lia. rewrite inject_Z_mult. by field.
  - destruct (H2 Hd) as (x & -> & Hx). simpl. eapply rounds_to_Qeq; [|exact Hx].
    by symmetry.
Qed.

Lemma computed_median_exact data q v :
  statistics.median data = Ok q → computed.median data = Ok v → stands_for v q.
Proof.
  intros Hq Hv. apply median_spec in Hq as [Ho He].
  apply computed_median_spec in Hv as [Ho' He'].
  destruct (decide (length data mod 2 = 1)%nat) as [Hodd|Hodd].
  - rewrite (Ho Hodd), (Ho' Hodd). simpl. reflexivity.
  - assert (length data mod 2 = 0)%nat as Heven.
    { pose proof (Nat.mod_upper_bound (length data) 2). lia. }
    destruct (He' Heven) as (x & -> & Hx). simpl.
    eapply rounds_to_Qeq; [|exact Hx]. symmetry. by apply He.
Qed.

Lemma computed_density_exact G v :
  computed.density G = Ok v →
  (v = Int 0 ∧ (density G == 0)%Q) ∨
  (∃ x, v = computed.double x ∧ rounds_to (density G * (1 # 2)) x).
Proof.
  intros Hv. apply computed_density_spec in Hv as [H0 H1].
  destruct (density_spec G) as [Hd1 Hd0].
  destruct (decide (number_of_nodes G ≤ 1)) as [HN|HN].
  { left. split; [apply H0; by right|]. by rewrite Hd0. }
  destruct (decide (number_of_edges G = 0)) as [HE|HE].
  { left. split; [apply H0; by left|]. rewrite Hd1 by lia. rewrite HE.
    unfold Qeq. simpl. lia. }
  right. destruct H1 as (x & -> & Hx); [done|lia|]. exists x. split; [done|].
  eapply rounds_to_Qeq; [|exact Hx]. rewrite Hd1 by lia.
  rewrite (inject_Z_mult 2). field. apply inject_Z_nonzero. nia.
Qed.
